(** * Curve frame builder ([script/set_FS_frame.py]): embedding and properties

    The script computes a moving frame (tangent, normal, binormal) along a
    3-D polyline with numpy arrays of float64.  The embedding keeps the
    program's structure and abstracts the scalar arithmetic behind the
    class [Scalar]:

    - every function of the script is a Rocq function over [list (vec F)],
      an (n,3) array being the list of its rows;
    - a Python call either returns or raises, which is the type [outcome];
      the exceptions met here are raised by numpy and scipy, the script has
      no [raise] of its own;
    - in-place array writes ([a[i] = v]) are list updates [<[i:=v]>] inside
      a fold over the loop's range;
    - [Scalar] has two instances: binary64 machine floats, the arithmetic
      of the program, and [xreal], exact real arithmetic extended with NaN.
      What the functions compute is stated for every [Scalar], binary64
      included, or on binary64 itself through the specification of its
      primitive operations; exact arithmetic serves for runs on concrete
      inputs whose values have no finite binary expansion. *)

From Stdlib Require Import ZArith Reals Lra Lia String.
From Stdlib Require PrimFloat Uint63 FloatAxioms SpecFloat FloatOps.
From stdpp Require Import base option list.

(** ** Python outcomes *)

Inductive exn : Type := PyExn (cls : string).

Definition IndexError : exn := PyExn "IndexError".
Definition ValueError : exn := PyExn "ValueError".

Inductive outcome (A : Type) : Type :=
  | Returns (a : A)
  | Raises (e : exn).
Arguments Returns {A} a.
Arguments Raises {A} e.

Definition raises {A} (o : outcome A) : Prop := ∃ e, o = Raises e.

#[global] Instance outcome_ret : MRet outcome := λ A a, Returns a.
#[global] Instance outcome_bind : MBind outcome := λ A B k o,
  match o with
  | Returns a => k a
  | Raises e => Raises e
  end.

(** ** Scalars: the float64 operations the script uses *)

Class Scalar (F : Type) : Type := {
  of_Z : Z → F;            (* an int literal or count converted to float *)
  nan : F;                 (* np.nan *)
  fadd : F → F → F;
  fsub : F → F → F;
  fmul : F → F → F;
  fdiv : F → F → F;
  fneg : F → F;
  fsqrt : F → F;
  fltb : F → F → bool;     (* a < b *)
}.

(** One row of an (n,3) array. *)
Record vec (F : Type) : Type := V3 { vx : F; vy : F; vz : F }.
Arguments V3 {F} vx vy vz.
Arguments vx {F} v.
Arguments vy {F} v.
Arguments vz {F} v.

Module Np.
Section Numpy.
Context {F : Type} `{Scalar F}.

Definition zero3 : vec F := V3 (of_Z 0) (of_Z 0) (of_Z 0).
Definition nan3 : vec F := V3 nan nan nan.

#[global] Instance vec_inhabited : Inhabited (vec F) := populate zero3.

(** Row arithmetic with broadcasting: [a + b], [a - b], [s * a], [a / s]. *)
Definition vadd (a b : vec F) : vec F :=
V3 (fadd (vx a) (vx b)) (fadd (vy a) (vy b)) (fadd (vz a) (vz b)).
Definition vsub (a b : vec F) : vec F :=
V3 (fsub (vx a) (vx b)) (fsub (vy a) (vy b)) (fsub (vz a) (vz b)).
Definition vscale (s : F) (a : vec F) : vec F :=
V3 (fmul s (vx a)) (fmul s (vy a)) (fmul s (vz a)).
Definition vdiv (a : vec F) (s : F) : vec F :=
V3 (fdiv (vx a) s) (fdiv (vy a) s) (fdiv (vz a) s).

(** [np.dot(a, b)] on two rows. *)
Definition dot (a b : vec F) : F :=
fadd (fadd (fmul (vx a) (vx b)) (fmul (vy a) (vy b))) (fmul (vz a) (vz b)).

(** [np.cross(a, b)] on two rows. *)
Definition cross (a b : vec F) : vec F :=
V3 (fsub (fmul (vy a) (vz b)) (fmul (vz a) (vy b)))
   (fsub (fmul (vz a) (vx b)) (fmul (vx a) (vz b)))
   (fsub (fmul (vx a) (vy b)) (fmul (vy a) (vx b))).

(** [np.linalg.norm] of one row; with [axis=1] it is mapped over the rows. *)
Definition linalg_norm (a : vec F) : F := fsqrt (dot a a).

(** [a / norms[:, np.newaxis]]: every row divided by its own norm entry. *)
Definition div_rows (a : list (vec F)) (norms : list F) : list (vec F) :=
zip_with vdiv a norms.

(** [np.mean(rows, axis=0)]: the sum of the rows over their count; on an
  empty slice this is 0/0. *)
Definition sum_rows (rows : list (vec F)) : vec F :=
match rows with
| [] => zero3
| r :: rs => foldl vadd r rs
end.
Definition mean (rows : list (vec F)) : vec F :=
vdiv (sum_rows rows) (of_Z (Z.of_nat (length rows))).

(** [np.diff(a, axis=0)]: row [i+1] minus row [i]. *)
Definition diff (a : list (vec F)) : list (vec F) :=
zip_with (λ p q, vsub q p) a (tail a).

(** [np.cumsum]. *)
Fixpoint cumsum_from (acc : F) (l : list F) : list F :=
match l with
| [] => []
| x :: l' => let s := fadd acc x in s :: cumsum_from s l'
end.
Definition cumsum (l : list F) : list F :=
match l with
| [] => []
| x :: l' => x :: cumsum_from x l'
end.

(** [np.pad(a, ((pad, pad), (0, 0)), mode='edge')]: numpy refuses a
  negative width, and refuses to extend an empty axis in edge mode. *)
Definition pad_edge (pad : Z) (a : list (vec F)) : outcome (list (vec F)) :=
if (pad <? 0)%Z then Raises ValueError
else match a with
     | [] => if (pad =? 0)%Z then Returns [] else Raises ValueError
     | first :: _ =>
         Returns (replicate (Z.to_nat pad) first ++ a
                    ++ replicate (Z.to_nat pad) (default first (last a)))
     end.

(** [np.linspace(0, 1, num)]: with [delta = 1 - 0] and [div = num - 1],
  the samples are [arange(num) * (delta / div) + 0] and the last one is
  then set to [1]; for [num = 1] there is no step and the single sample
  is [0 * delta + 0]. *)
Definition linspace01 (num : nat) : list F :=
let delta := fsub (of_Z 1) (of_Z 0) in
match num with
| 0 => []
| 1 => [fadd (fmul (of_Z 0) delta) (of_Z 0)]
| S (S _ as div) =>
    let step := fdiv delta (of_Z (Z.of_nat div)) in
    ((λ i, fadd (fmul (of_Z (Z.of_nat i)) step) (of_Z 0)) <$> seq 0 div)
      ++ [of_Z 1]
end.

(** [a[i:j]] for [0 <= i] and [0 <= j]: the slice is cut at the end of
  [a]. *)
Definition slice (a : list (vec F)) (i : nat) (j : Z) : list (vec F) :=
take (Z.to_nat j - i) (drop i a).

(** [a[-1]]: IndexError on an empty array. *)
Definition last_row (a : list (vec F)) : outcome (vec F) :=
match last a with
| Some v => Returns v
| None => Raises IndexError
end.

(** [a[i]] for [0 <= i]: IndexError out of range. *)
Definition row (a : list (vec F)) (i : nat) : outcome (vec F) :=
match a !! i with
| Some v => Returns v
| None => Raises IndexError
end.
End Numpy.
End Np.

(** ** The script *)

Section Script.
Context {F : Type} `{Scalar F}.

(** [scipy.interpolate.CubicSpline(x, y)]: the fitted spline as a function
    of the parameter, or the library's exception. *)
Variable CubicSpline : list F → list F → outcome (F → F).

(** *** [smooth_vectors] *)

(** The inner loop of a pass (lines 14-15): for [i] in
    [range(len(smoothed_vectors))], row [i] of [smoothed_vectors] is
    overwritten by the mean of [padded_vectors[i:i + window_size]]. *)
Definition window_step (padded : list (vec F)) (window_size : Z)
    (smoothed : list (vec F)) (i : nat) : list (vec F) :=
  <[i := Np.mean (Np.slice padded i (Z.of_nat i + window_size))]> smoothed.

Definition window_loop (padded : list (vec F)) (window_size : Z)
    (smoothed : list (vec F)) : list (vec F) :=
  foldl (window_step padded window_size) smoothed (seq 0 (length smoothed)).

(** One iteration of the outer loop (lines 9-19). *)
Definition smooth_pass (window_size : Z) (smoothed : list (vec F))
    : outcome (list (vec F)) :=
  let pad_width := (window_size `div` 2)%Z in
  padded ← Np.pad_edge pad_width smoothed;
  let smoothed := window_loop padded window_size smoothed in
  let norms := Np.linalg_norm <$> smoothed in
  Returns (Np.div_rows smoothed norms).

Fixpoint smooth_passes (passes : nat) (window_size : Z)
    (smoothed : list (vec F)) : outcome (list (vec F)) :=
  match passes with
  | 0 => Returns smoothed
  | S passes' =>
      smoothed' ← smooth_pass window_size smoothed;
      smooth_passes passes' window_size smoothed'
  end.

(** [passes] is a [nat]: [range(passes)] is empty for a negative count as
    it is for 0.  The copy of line 7 is the value itself. *)
Definition smooth_vectors (vectors : list (vec F)) (window_size : Z)
    (passes : nat) : outcome (list (vec F)) :=
  smooth_passes passes window_size vectors.

(** The defaults [window_size=10, passes=1], as every caller uses them. *)
Definition smooth_vectors_default (vectors : list (vec F)) :=
  smooth_vectors vectors 10 1.

(** *** [interpolate_line] *)

Definition interpolate_line (points : list (vec F))
    (num_points : option nat) : outcome (list (vec F)) :=
  let num_points := default (length points) num_points in
  let distance :=
    Np.cumsum (of_Z 0 :: (Np.linalg_norm <$> Np.diff points)) in
  let distance_normalized :=
    (λ d, fdiv d (default (of_Z 0) (last distance))) <$> distance in
  spline_x ← CubicSpline distance_normalized (vx <$> points);
  spline_y ← CubicSpline distance_normalized (vy <$> points);
  spline_z ← CubicSpline distance_normalized (vz <$> points);
  let interpolated_distance := Np.linspace01 num_points in
  Returns ((λ u, V3 (spline_x u) (spline_y u) (spline_z u))
             <$> interpolated_distance).

(** *** [compute_tangent_vectors] *)

(** Lines 52-56: the tangents after normalization, before smoothing. *)
Definition normalized_differences (interpolated_points : list (vec F))
    : outcome (list (vec F)) :=
  let tangents := Np.diff interpolated_points in
  last ← Np.last_row tangents;
  let tangents := tangents ++ [last] in
  let norms := Np.linalg_norm <$> tangents in
  Returns (Np.div_rows tangents norms).

Definition compute_tangent_vectors (interpolated_points : list (vec F))
    : outcome (list (vec F)) :=
  tangents ← normalized_differences interpolated_points;
  smooth_vectors_default tangents.

(** *** [compute_MRF] *)

(** The body of the propagation loop (lines 75-79) on the two arrays. *)
Definition propagate_step (tangents : list (vec F))
    (frames : list (vec F) * list (vec F)) (i : nat)
    : list (vec F) * list (vec F) :=
  let '(normals, binormals) := frames in
  let prev := normals !!! (i - 1) in
  let t := tangents !!! i in
  let normals := <[i := Np.vsub prev (Np.vscale (Np.dot prev t) t)]> normals in
  let normals :=
    <[i := Np.vdiv (normals !!! i) (Np.linalg_norm (normals !!! i))]> normals in
  let binormals := <[i := Np.cross t (normals !!! i)]> binormals in
  (normals, binormals).

(** Lines 61-79: the frames as propagated, before smoothing. *)
Definition propagate_frames (tangents : list (vec F))
    : outcome (list (vec F) * list (vec F)) :=
  let normals := replicate (length tangents) Np.zero3 in
  let binormals := replicate (length tangents) Np.zero3 in
  t0 ← Np.row tangents 0;
  let normals := <[0 := V3 (vy t0) (fneg (vx t0)) (of_Z 0)]> normals in
  let normals :=
    <[0 := Np.vdiv (normals !!! 0) (Np.linalg_norm (normals !!! 0))]> normals in
  let binormals := <[0 := Np.cross t0 (normals !!! 0)]> binormals in
  Returns (foldl (propagate_step tangents) (normals, binormals)
             (seq 1 (length tangents - 1))).

Definition compute_MRF (tangents : list (vec F))
    : outcome (list (vec F) * list (vec F)) :=
  '(normals, binormals) ← propagate_frames tangents;
  normals ← smooth_vectors_default normals;
  binormals ← smooth_vectors_default binormals;
  Returns (normals, binormals).

(** *** [compute_normal_vectors]
    (the Frenet-Serret variant, not called by [draw_FS_frames]) *)

(** The literal [1e-6]. *)
Definition eps : F := fdiv (of_Z 1) (of_Z 1000000).

(** [a[zeros] = v]: the rows selected by the boolean mask are replaced. *)
Definition mask_set (a : list (vec F)) (zeros : list bool) (v : vec F)
    : list (vec F) :=
  zip_with (λ r (z : bool), if z then v else r) a zeros.

(** Lines 92-100: normalization with the zero placeholder. *)
Definition normalize_with_placeholder (a : list (vec F)) : list (vec F) :=
  let norms := Np.linalg_norm <$> a in
  let zeros := (λ n, fltb n eps) <$> norms in
  let a := mask_set a zeros Np.nan3 in
  let a := Np.div_rows a norms in
  mask_set a zeros Np.zero3.

Definition compute_normal_vectors (tangents : list (vec F))
    : outcome (list (vec F)) :=
  let normals := Np.diff tangents in
  last ← Np.last_row normals;
  let normals := normals ++ [last] in
  smooth_vectors_default (normalize_with_placeholder normals).

End Script.

(** ** The smoothing pass as the specification words it

    Section 4.4: pad both ends by edge replication of length window/2,
    replace each vector by the mean of the window-sized neighbourhood that
    starts at its index in the padded sequence, renormalize every vector;
    repeat for the number of passes. *)

Section SmoothingSpec.
Context {F : Type} `{Scalar F}.

Definition normalize (v : vec F) : vec F := Np.vdiv v (Np.linalg_norm v).

Definition edge_padded (half : nat) (vs : list (vec F)) : list (vec F) :=
  replicate half (default Np.zero3 (head vs)) ++ vs
    ++ replicate half (default Np.zero3 (last vs)).

Definition forward_window (padded : list (vec F)) (w i : nat)
    : list (vec F) :=
  take w (drop i padded).

Definition spec_pass (w : Z) (vs : list (vec F)) : list (vec F) :=
  let padded := edge_padded (Z.to_nat (w `div` 2)) vs in
  (λ i, normalize (Np.mean (forward_window padded (Z.to_nat w) i)))
    <$> seq 0 (length vs).

Definition spec_smooth (vs : list (vec F)) (w : Z) (p : nat)
    : list (vec F) :=
  Nat.iter p (spec_pass w) vs.

(** The pass as a batch map over a padded copy: what the in-place loop of
    the source is compared with. *)
Definition batch_means (padded : list (vec F)) (w : Z) (n : nat)
    : list (vec F) :=
  (λ i, Np.mean (Np.slice padded i (Z.of_nat i + w))) <$> seq 0 n.

(** When the smoothing raises: numpy's [pad] refuses the request. *)
Definition pad_refused (vs : list (vec F)) (w : Z) (p : nat) : Prop :=
  p ≠ 0 ∧ ((w < 0)%Z ∨ (vs = [] ∧ (2 ≤ w)%Z)).
End SmoothingSpec.

(** ** The frame recurrence

    [propagate_frames] fills two arrays in place; [frames_of] is the same
    computation as a recursion on the tangents, each normal being obtained
    from the previous one. *)

Section FrameRecurrence.
Context {F : Type} `{Scalar F}.

(** Line 75: the previous normal minus its component along [t]. *)
Definition project (prev t : vec F) : vec F :=
  Np.vsub prev (Np.vscale (Np.dot prev t) t).

(** Lines 66-67. *)
Definition initial_normal (t0 : vec F) : vec F :=
  normalize (V3 (vy t0) (fneg (vx t0)) (of_Z 0)).

Fixpoint transport (prev : vec F) (ts : list (vec F)) : list (vec F) :=
  match ts with
  | [] => []
  | t :: ts' =>
      let n := normalize (project prev t) in n :: transport n ts'
  end.

Definition normals_of (t0 : vec F) (ts : list (vec F)) : list (vec F) :=
  initial_normal t0 :: transport (initial_normal t0) ts.

Definition frames_of (tangents : list (vec F))
    : outcome (list (vec F) * list (vec F)) :=
  match tangents with
  | [] => Raises IndexError
  | t0 :: ts =>
      let normals := normals_of t0 ts in
      Returns (normals, zip_with Np.cross tangents normals)
  end.
End FrameRecurrence.

(** ** Properties that hold in every scalar arithmetic *)

Ltac zdiv := Z.div_mod_to_equations; lia.

Section Generic.
Context {F : Type} `{Scalar F}.

Lemma bind_Returns {A B} (a : A) (k : A → outcome B) :
  Returns a ≫= k = k a.
Proof. done. Qed.

Lemma window_loop_prefix (padded : list (vec F)) (w : Z)
    (sv : list (vec F)) (k : nat) :
  k ≤ length sv →
  foldl (window_step padded w) sv (seq 0 k)
  = batch_means padded w k ++ drop k sv.
Proof.
  unfold batch_means.
  induction k as [|k IH]; intros Hk.
  - by rewrite drop_0.
  - rewrite !seq_S, foldl_app, IH, fmap_app by lia. simpl.
    unfold window_step at 1.
    assert (Hlen : length ((λ i, Np.mean (Np.slice padded i (Z.of_nat i + w)))
                             <$> seq 0 k) = k)
      by by rewrite length_fmap, length_seq.
    destruct (lookup_lt_is_Some_2 sv k) as [x Hx]; [lia|].
    rewrite (drop_S _ _ _ Hx).
    rewrite insert_app_r_alt by lia.
    rewrite Hlen, Nat.sub_diag. simpl.
    by rewrite <- app_assoc.
Qed.

Lemma window_loop_batch (padded : list (vec F)) (w : Z)
    (sv : list (vec F)) :
  window_loop padded w sv = batch_means padded w (length sv).
Proof.
  unfold window_loop. rewrite window_loop_prefix by done.
  by rewrite drop_all, app_nil_r.
Qed.

Lemma length_batch_means (padded : list (vec F)) w n :
  length (batch_means padded w n) = n.
Proof. unfold batch_means. by rewrite length_fmap, length_seq. Qed.

Lemma div_rows_norms (vs : list (vec F)) :
  Np.div_rows vs (Np.linalg_norm <$> vs) = normalize <$> vs.
Proof.
  unfold Np.div_rows. induction vs as [|v vs IH]; csimpl; [done|].
  by rewrite IH.
Qed.

Lemma smooth_pass_batch w (sv : list (vec F)) :
  smooth_pass w sv
  = (padded ← Np.pad_edge (w `div` 2) sv;
     Returns (normalize <$> batch_means padded w (length sv))).
Proof.
  unfold smooth_pass. destruct (Np.pad_edge _ sv) as [padded|e]; simpl; [|done].
  by rewrite div_rows_norms, window_loop_batch.
Qed.

Lemma last_nonempty {A} (l : list A) (d d' : A) :
  l ≠ [] → default d (last l) = default d' (last l).
Proof.
  intros Hne. by destruct (proj2 (last_is_Some l) Hne) as [x ->].
Qed.

Lemma pad_edge_nonempty (pad : Z) (vs : list (vec F)) :
  (0 ≤ pad)%Z → vs ≠ [] →
  Np.pad_edge pad vs = Returns (edge_padded (Z.to_nat pad) vs).
Proof.
  intros Hpad Hne. unfold Np.pad_edge, edge_padded.
  destruct (Z.ltb_spec pad 0); [lia|].
  destruct vs as [|v vs]; [done|]. cbn [head default].
  by rewrite (last_nonempty (v :: vs) v Np.zero3).
Qed.

Lemma slice_forward_window (padded : list (vec F)) (w : Z) (i : nat) :
  (0 ≤ w)%Z →
  Np.slice padded i (Z.of_nat i + w) = forward_window padded (Z.to_nat w) i.
Proof.
  intros Hw. unfold Np.slice, forward_window. f_equal. lia.
Qed.

(** In input coordinates: away from the two ends, the window of row [i]
    covers the input rows [i - w/2 .. i - w/2 + w - 1]. *)
Lemma forward_window_interior (vs : list (vec F)) (half w i : nat) :
  half ≤ i → i - half + w ≤ length vs →
  forward_window (edge_padded half vs) w i = take w (drop (i - half) vs).
Proof.
  intros Hi Hw. unfold forward_window, edge_padded.
  rewrite drop_app_ge by (rewrite length_replicate; lia).
  rewrite length_replicate, drop_app_le by lia.
  rewrite take_app_le by (rewrite length_drop; lia). done.
Qed.

Lemma length_spec_pass w (vs : list (vec F)) :
  length (spec_pass w vs) = length vs.
Proof. unfold spec_pass. by rewrite length_fmap, length_seq. Qed.

Lemma smooth_pass_returns w (vs : list (vec F)) :
  (0 ≤ w)%Z → vs ≠ [] ∨ (w < 2)%Z →
  smooth_pass w vs = Returns (spec_pass w vs).
Proof.
  intros Hw Hvs. rewrite smooth_pass_batch. unfold spec_pass, batch_means.
  assert (Hmap : ∀ padded,
    normalize <$> ((λ i, Np.mean (Np.slice padded i (Z.of_nat i + w)))
                     <$> seq 0 (length vs))
    = (λ i, normalize (Np.mean (forward_window padded (Z.to_nat w) i)))
        <$> seq 0 (length vs)).
  { intros padded. rewrite <- list_fmap_compose. apply list_fmap_ext.
    intros _ i _. simpl. by rewrite slice_forward_window. }
  destruct vs as [|v vs].
  - destruct Hvs as [?|Hlt]; [done|].
    unfold Np.pad_edge.
    destruct (Z.ltb_spec (w `div` 2) 0); [zdiv|].
    destruct (Z.eqb_spec (w `div` 2) 0) as [_|Hne]; [done|zdiv].
  - rewrite pad_edge_nonempty by (done || zdiv).
    rewrite bind_Returns. by rewrite Hmap.
Qed.

Lemma smooth_pass_raises w (vs : list (vec F)) :
  (w < 0)%Z ∨ (vs = [] ∧ (2 ≤ w)%Z) →
  smooth_pass w vs = Raises ValueError.
Proof.
  intros Hbad. unfold smooth_pass, Np.pad_edge.
  destruct (Z.ltb_spec (w `div` 2) 0) as [Hneg|Hpos]; [done|].
  destruct Hbad as [Hw|[-> Hw]].
  - zdiv.
  - destruct (Z.eqb_spec (w `div` 2) 0) as [Hz|_]; [zdiv|done].
Qed.

Lemma smooth_passes_returns p w (vs : list (vec F)) :
  (0 ≤ w)%Z → vs ≠ [] ∨ (w < 2)%Z →
  smooth_passes p w vs = Returns (spec_smooth vs w p).
Proof.
  intros Hw. revert vs. induction p as [|p IH]; intros vs Hvs; [done|].
  unfold spec_smooth. rewrite Nat.iter_succ_r. simpl.
  rewrite smooth_pass_returns by done. simpl.
  apply IH. destruct Hvs as [Hne|?]; [left|by right].
  intros Hnil. apply Hne. apply nil_length_inv.
  by rewrite <- (length_spec_pass w vs), Hnil.
Qed.

Lemma length_spec_smooth (vs : list (vec F)) w p :
  length (spec_smooth vs w p) = length vs.
Proof.
  unfold spec_smooth. induction p as [|p IH]; [done|].
  simpl. by rewrite length_spec_pass.
Qed.

(** C5: smoothing performs [p] passes, each padding both ends by edge
    replication of length [w/2], taking at every index the mean of the
    forward window of size [w] of the padded sequence, and renormalizing;
    the only other behaviour is numpy refusing the padding (negative
    window, or an empty sequence with a window of 2 or more). *)
Theorem smooth_vectors_refines_spec (vs : list (vec F)) (w : Z) (p : nat) :
  (pad_refused vs w p → smooth_vectors vs w p = Raises ValueError)
  ∧ (¬ pad_refused vs w p →
     smooth_vectors vs w p = Returns (spec_smooth vs w p)).
Proof.
  unfold smooth_vectors, pad_refused. split.
  - intros [Hp Hbad]. destruct p as [|p]; [done|]. simpl.
    by rewrite smooth_pass_raises.
  - intros Hok. destruct p as [|p]; [done|].
    apply smooth_passes_returns.
    + destruct (Z.lt_ge_cases w 0); [|done]. exfalso. apply Hok. auto.
    + destruct vs as [|v vs]; [|by left]. right.
      destruct (Z.lt_ge_cases w 2); [done|]. exfalso. apply Hok. auto.
Qed.

(** C10: a pass builds the padded copy once from the pre-pass vectors and
    is a batch map of window means over that copy; the in-place loop gives
    the same rows whatever the array it overwrites holds. *)
Theorem smooth_pass_is_batch_map (w : Z) (sv : list (vec F)) :
  smooth_pass w sv
  = (padded ← Np.pad_edge (w `div` 2) sv;
     Returns (normalize <$> batch_means padded w (length sv)))
  ∧ ∀ padded sv', length sv' = length sv →
      window_loop padded w sv' = batch_means padded w (length sv).
Proof.
  split; [apply smooth_pass_batch|].
  intros padded sv' <-. apply window_loop_batch.
Qed.

(** *** Finite differences *)

Lemma length_diff (l : list (vec F)) : length (Np.diff l) = length l - 1.
Proof.
  unfold Np.diff. rewrite length_zip_with.
  destruct l; [done|]. cbn [tail length]. lia.
Qed.

Lemma lookup_diff (l : list (vec F)) i p q :
  l !! i = Some p → l !! S i = Some q →
  Np.diff l !! i = Some (Np.vsub q p).
Proof.
  intros Hp Hq. unfold Np.diff.
  by rewrite lookup_zip_with, lookup_tail, Hp, Hq.
Qed.

Lemma normalized_differences_returns (l : list (vec F)) d :
  last (Np.diff l) = Some d →
  normalized_differences l = Returns (normalize <$> (Np.diff l ++ [d])).
Proof.
  intros Hd. unfold normalized_differences, Np.last_row. rewrite Hd.
  rewrite bind_Returns. by rewrite div_rows_norms.
Qed.

Lemma normalized_differences_raises (l : list (vec F)) :
  length l ≤ 1 → normalized_differences l = Raises IndexError.
Proof.
  intros Hl. unfold normalized_differences, Np.last_row.
  assert (Np.diff l = []) as ->; [|done].
  apply nil_length_inv. rewrite length_diff. lia.
Qed.

Lemma smooth_default_returns (vs : list (vec F)) :
  vs ≠ [] →
  smooth_vectors_default vs = Returns (spec_smooth vs 10 1)
  ∧ length (spec_smooth vs 10 1) = length vs.
Proof.
  intros Hvs. split; [|apply length_spec_smooth].
  apply smooth_passes_returns; [lia|by left].
Qed.

Lemma compute_tangent_vectors_returns (pts : list (vec F)) :
  2 ≤ length pts →
  ∃ out, compute_tangent_vectors pts = Returns out
         ∧ length out = length pts.
Proof.
  intros Hlen.
  assert (HlenD : length (Np.diff pts) = length pts - 1)
    by apply length_diff.
  assert (is_Some (last (Np.diff pts))) as [d Hd].
  { apply last_is_Some. intros HD. rewrite HD in HlenD. simpl in HlenD. lia. }
  unfold compute_tangent_vectors.
  rewrite (normalized_differences_returns _ _ Hd), bind_Returns.
  set (ts := normalize <$> _).
  assert (Hts : length ts = length pts).
  { unfold ts. rewrite length_fmap, length_app, HlenD. simpl. lia. }
  destruct (smooth_default_returns ts) as [-> Hl].
  - intros Hnil. rewrite Hnil in Hts. simpl in Hts. lia.
  - eexists. split; [done|]. by rewrite Hl.
Qed.

(** *** The placeholder normalization *)

Lemma placeholder_row (a : list (vec F)) i v :
  a !! i = Some v → fltb (Np.linalg_norm v) eps = true →
  normalize_with_placeholder a !! i = Some Np.zero3.
Proof.
  intros Hv Hsmall. unfold normalize_with_placeholder, mask_set, Np.div_rows.
  rewrite !lookup_zip_with, !list_lookup_fmap, Hv. simpl.
  by rewrite Hsmall.
Qed.

(** *** The propagation loop fills the arrays from left to right *)

Lemma foldl_one {A B} (f : A → B → A) (a : A) (x : B) :
  foldl f a [x] = f a x.
Proof. done. Qed.

Lemma fill_next {A} (L : list A) (z v : A) (n j : nat) :
  length L = n → L !! j = Some v →
  <[j := v]> (take j L ++ replicate (n - j) z)
  = take (S j) L ++ replicate (n - S j) z.
Proof.
  intros Hlen Hj. assert (j < n) by (rewrite <- Hlen; by eapply lookup_lt_Some).
  assert (length (take j L) = j) by (rewrite length_take; lia).
  rewrite insert_app_r_alt by lia.
  replace (j - length (take j L)) with 0 by lia.
  replace (n - j) with (S (n - S j)) by lia. simpl.
  rewrite (take_S_r _ _ _ Hj). by rewrite <- app_assoc.
Qed.

Lemma length_transport (prev : vec F) ts :
  length (transport prev ts) = length ts.
Proof. revert prev. induction ts as [|t ts IH]; intros prev; simpl; auto. Qed.

Lemma lookup_transport (n0 : vec F) ts i t prev :
  ts !! i = Some t → (n0 :: transport n0 ts) !! i = Some prev →
  (n0 :: transport n0 ts) !! S i = Some (normalize (project prev t)).
Proof.
  revert n0 i. induction ts as [|t' ts IH]; intros n0 i Ht Hprev; [done|].
  destruct i as [|i]; simpl in *.
  - by simplify_eq.
  - by apply IH.
Qed.

Lemma propagate_step_fill (ts N B : list (vec F)) (i : nat) :
  i < length N →
  propagate_step ts (N, B) i
  = let n := normalize (project (N !!! (i - 1)) (ts !!! i)) in
    (<[i := n]> N, <[i := Np.cross (ts !!! i) n]> B).
Proof.
  intros Hi. unfold propagate_step. cbv zeta.
  rewrite list_insert_insert_eq.
  rewrite !list_lookup_total_insert_eq by (by rewrite ?length_insert).
  done.
Qed.

Lemma propagate_loop_fill (t0 : vec F) (ts : list (vec F)) (k : nat) :
  let tangents := t0 :: ts in
  let n := length tangents in
  let L := normals_of t0 ts in
  let LB := zip_with Np.cross tangents L in
  k < n →
  foldl (propagate_step tangents)
    (take 1 L ++ replicate (n - 1) Np.zero3,
     take 1 LB ++ replicate (n - 1) Np.zero3) (seq 1 k)
  = (take (S k) L ++ replicate (n - S k) Np.zero3,
     take (S k) LB ++ replicate (n - S k) Np.zero3).
Proof.
  intros tangents n L LB.
  assert (HL : length L = n)
    by (unfold L, normals_of, n, tangents; simpl; by rewrite length_transport).
  assert (HLB : length LB = n)
    by (unfold LB; rewrite length_zip_with, HL; unfold n; lia).
  induction k as [|k IH]; intros Hk; [done|].
  rewrite seq_S, foldl_app, IH, foldl_one by lia.
  rewrite propagate_step_fill
    by (rewrite length_app, length_take, length_replicate; lia).
  cbv zeta. replace (1 + k - 1) with k by lia. change (1 + k) with (S k).
  destruct (lookup_lt_is_Some_2 L k) as [prev Hprev]; [lia|].
  destruct (lookup_lt_is_Some_2 tangents (S k)) as [t Ht]; [done|].
  assert (HN : (take (S k) L ++ replicate (n - S k) Np.zero3) !!! k = prev).
  { apply list_lookup_total_correct.
    rewrite lookup_app_l by (rewrite length_take; lia).
    by rewrite lookup_take_lt by lia. }
  rewrite HN, (list_lookup_total_correct _ _ _ Ht).
  assert (HLk : L !! S k = Some (normalize (project prev t)))
    by (by apply lookup_transport).
  assert (HLBk : LB !! S k
                 = Some (Np.cross t (normalize (project prev t)))).
  { unfold LB. rewrite lookup_zip_with, Ht, HLk. done. }
  by rewrite (fill_next L _ _ n (S k) HL HLk),
             (fill_next LB _ _ n (S k) HLB HLBk).
Qed.

Lemma propagate_frames_rec (tangents : list (vec F)) :
  propagate_frames tangents = frames_of tangents.
Proof.
  destruct tangents as [|t0 ts]; [done|].
  unfold propagate_frames, frames_of, Np.row.
  cbn [lookup list_lookup]. rewrite bind_Returns. cbv zeta.
  f_equal.
  pose proof (propagate_loop_fill t0 ts (length ts)) as Hfill.
  cbv zeta in Hfill.
  assert (HL : length (normals_of t0 ts) = S (length ts))
    by (unfold normals_of; simpl; by rewrite length_transport).
  change (length (t0 :: ts)) with (S (length ts)) in *.
  specialize (Hfill (Nat.lt_succ_diag_r _)).
  replace (S (length ts) - 1) with (length ts) in * by lia.
  rewrite Nat.sub_diag in Hfill. simpl replicate in Hfill.
  rewrite !app_nil_r in Hfill.
  rewrite (take_ge (normals_of t0 ts) (S (length ts))) in Hfill by lia.
  rewrite (take_ge (zip_with _ _ _) (S (length ts))) in Hfill
    by (rewrite length_zip_with, HL; simpl; lia).
  by rewrite <- Hfill.
Qed.

Lemma propagate_frames_returns (t0 : vec F) ts :
  propagate_frames (t0 :: ts)
  = Returns (normals_of t0 ts,
             zip_with Np.cross (t0 :: ts) (normals_of t0 ts)).
Proof. by rewrite propagate_frames_rec. Qed.

Lemma propagate_frames_empty :
  propagate_frames ([] : list (vec F)) = Raises IndexError.
Proof. done. Qed.

Lemma propagate_frames_length (tangents ns bs : list (vec F)) :
  propagate_frames tangents = Returns (ns, bs) →
  length ns = length tangents ∧ length bs = length tangents.
Proof.
  destruct tangents as [|t0 ts]; [done|].
  rewrite propagate_frames_returns. intros [= <- <-].
  assert (length (normals_of t0 ts) = length (t0 :: ts))
    by (unfold normals_of; simpl; by rewrite length_transport).
  split; [done|]. simpl. rewrite length_zip_with, length_transport. lia.
Qed.

Lemma propagate_frames_step (tangents ns bs : list (vec F)) i t prev :
  propagate_frames tangents = Returns (ns, bs) →
  tangents !! S i = Some t → ns !! i = Some prev →
  ns !! S i = Some (normalize (project prev t))
  ∧ bs !! S i = Some (Np.cross t (normalize (project prev t))).
Proof.
  destruct tangents as [|t0 ts]; [done|].
  rewrite propagate_frames_returns. intros [= <- <-] Ht Hprev.
  assert (Hn : normals_of t0 ts !! S i
               = Some (normalize (project prev t)))
    by (by apply lookup_transport).
  split; [done|].
  change (zip_with Np.cross (t0 :: ts) (normals_of t0 ts) !! S i
          = Some (Np.cross t (normalize (project prev t)))).
  by rewrite lookup_zip_with, Ht, Hn.
Qed.

Lemma compute_MRF_returns (tangents : list (vec F)) :
  tangents ≠ [] →
  ∃ ns bs, compute_MRF tangents = Returns (ns, bs)
           ∧ length ns = length tangents ∧ length bs = length tangents.
Proof.
  intros Hne. destruct tangents as [|t0 ts]; [done|].
  pose proof (propagate_frames_returns t0 ts) as Hret.
  destruct (propagate_frames_length _ _ _ Hret) as [Hln Hlb].
  unfold compute_MRF. rewrite Hret, bind_Returns.
  destruct (smooth_default_returns (normals_of t0 ts)) as [-> Hl1]; [done|].
  rewrite bind_Returns.
  destruct (smooth_default_returns
              (zip_with Np.cross (t0 :: ts) (normals_of t0 ts)))
    as [-> Hl2].
  { intros Hnil. rewrite Hnil in Hlb. done. }
  rewrite bind_Returns. eexists _, _. split; [done|].
  by rewrite Hl1, Hl2, Hln, Hlb.
Qed.
End Generic.

(** ** Exact arithmetic with NaN

    The reals extended with one NaN.  Every operation on finite operands is
    the exact real operation; NaN is absorbing, comparisons with NaN are
    false, and a division by zero is NaN.  There is no rounding, no
    overflow or underflow and no infinity here, so this arithmetic is used
    on concrete inputs only, where binary64 computes the same rows up to
    rounding (section "The same inputs on binary64 floats"). *)

Inductive xreal : Type :=
  | Fin (r : R)
  | NaN.

Module X.
Definition add (a b : xreal) : xreal :=
  match a, b with Fin x, Fin y => Fin (x + y) | _, _ => NaN end.
Definition sub (a b : xreal) : xreal :=
  match a, b with Fin x, Fin y => Fin (x - y) | _, _ => NaN end.
Definition mul (a b : xreal) : xreal :=
  match a, b with Fin x, Fin y => Fin (x * y) | _, _ => NaN end.
Definition div (a b : xreal) : xreal :=
  match a, b with
  | Fin x, Fin y => if Req_dec_T y 0 then NaN else Fin (x / y)
  | _, _ => NaN
  end.
Definition neg (a : xreal) : xreal :=
  match a with Fin x => Fin (- x) | NaN => NaN end.
Definition sqrt (a : xreal) : xreal :=
  match a with
  | Fin x => if Rlt_dec x 0 then NaN else Fin (R_sqrt.sqrt x)
  | NaN => NaN
  end.
Definition ltb (a b : xreal) : bool :=
  match a, b with
  | Fin x, Fin y => if Rlt_dec x y then true else false
  | _, _ => false
  end.
End X.

#[global] Instance xreal_scalar : Scalar xreal := {|
  of_Z z := Fin (IZR z);
  nan := NaN;
  fadd := X.add; fsub := X.sub; fmul := X.mul; fdiv := X.div;
  fneg := X.neg; fsqrt := X.sqrt; fltb := X.ltb
|}.

(** ** binary64 arithmetic *)

Abbreviation float := PrimFloat.float.

Definition float_of_Z (z : Z) : float :=
  match z with
  | Z0 => PrimFloat.zero
  | Zpos _ => PrimFloat.of_uint63 (Uint63.of_Z z)
  | Zneg p => PrimFloat.opp (PrimFloat.of_uint63 (Uint63.of_Z (Zpos p)))
  end.

#[global] Instance float_scalar : Scalar float := {|
  of_Z := float_of_Z;
  nan := PrimFloat.nan;
  fadd := PrimFloat.add; fsub := PrimFloat.sub; fmul := PrimFloat.mul;
  fdiv := PrimFloat.div; fneg := PrimFloat.opp; fsqrt := PrimFloat.sqrt;
  fltb := PrimFloat.ltb
|}.

(** ** Vectors with real coordinates *)

Definition fin3 (a : vec R) : vec xreal :=
  V3 (Fin (vx a)) (Fin (vy a)) (Fin (vz a)).

Definition rdot (a b : vec R) : R :=
  (vx a * vx b + vy a * vy b + vz a * vz b)%R.

(** The tolerances of the specification, on possibly non-finite values. *)
Definition unit_within (tol : R) (v : vec xreal) : Prop :=
  ∃ r, Np.linalg_norm v = Fin r ∧ (Rabs (r - 1) < tol)%R.

Definition dot_within (tol : R) (u v : vec xreal) : Prop :=
  ∃ r, Np.dot u v = Fin r ∧ (Rabs r < tol)%R.

Section ExactLemmas.
Local Open Scope R_scope.

Lemma xdiv_fin (x y : R) : y ≠ 0 → X.div (Fin x) (Fin y) = Fin (x / y).
Proof. intros Hy. simpl. by destruct (Req_dec_T y 0). Qed.

Lemma xdiv_zero (x : R) : X.div (Fin x) (Fin 0) = NaN.
Proof. simpl. by destruct (Req_dec_T 0 0). Qed.

Lemma xsqrt_fin (x : R) : 0 <= x → X.sqrt (Fin x) = Fin (sqrt x).
Proof. intros Hx. simpl. destruct (Rlt_dec x 0); [lra|done]. Qed.

Lemma rdot_self_nonneg (a : vec R) : 0 <= rdot a a.
Proof. destruct a as [x y z]. unfold rdot. simpl. nra. Qed.

Lemma rdot_self_zero (a : vec R) : rdot a a = 0 → a = V3 0 0 0.
Proof.
  destruct a as [x y z]. unfold rdot. simpl. intros Hs.
  assert (x = 0) by nra. assert (y = 0) by nra. assert (z = 0) by nra.
  by subst.
Qed.

Lemma dot_fin3 (a b : vec R) : Np.dot (fin3 a) (fin3 b) = Fin (rdot a b).
Proof. done. Qed.

Lemma norm_fin3 (a : vec R) :
  Np.linalg_norm (fin3 a) = Fin (sqrt (rdot a a)).
Proof.
  unfold Np.linalg_norm. rewrite dot_fin3.
  apply xsqrt_fin, rdot_self_nonneg.
Qed.

(** A vector is finite in every coordinate, or its norm is NaN. *)
Lemma finite_or_nan_norm (v : vec xreal) :
  (∃ a, v = fin3 a) ∨ Np.dot v v = NaN.
Proof.
  destruct v as [[x|] [y|] [z|]]; try by right.
  left. by exists (V3 x y z).
Qed.

Lemma vdiv_zero (a : vec R) : Np.vdiv (fin3 a) (Fin 0) = Np.nan3.
Proof.
  destruct a as [x y z]. unfold Np.vdiv, fin3, Np.nan3. simpl vx; simpl vy; simpl vz.
  change fdiv with X.div. by rewrite !xdiv_zero.
Qed.

Lemma vdiv_fin (a : vec R) (s : R) :
  s ≠ 0 → Np.vdiv (fin3 a) (Fin s) = fin3 (V3 (vx a / s) (vy a / s) (vz a / s)).
Proof.
  intros Hs. destruct a as [x y z]. unfold Np.vdiv, fin3. simpl vx; simpl vy; simpl vz.
  change fdiv with X.div. by rewrite !xdiv_fin.
Qed.

(** The division of line 19 (and 56, 67, 76) on a finite row. *)
Lemma normalize_fin3 (a : vec R) :
  rdot a a ≠ 0 →
  let n := sqrt (rdot a a) in
  normalize (fin3 a) = fin3 (V3 (vx a / n) (vy a / n) (vz a / n)).
Proof.
  intros Ha n. unfold normalize. rewrite norm_fin3. apply vdiv_fin.
  intros Hn. apply Ha. apply sqrt_eq_0; [apply rdot_self_nonneg|done].
Qed.

Lemma normalize_zero : normalize (fin3 (V3 0 0 0)) = Np.nan3.
Proof.
  unfold normalize. rewrite norm_fin3.
  replace (rdot (V3 0 0 0) (V3 0 0 0)) with 0 by (unfold rdot; simpl; lra).
  rewrite sqrt_0. apply vdiv_zero.
Qed.

(** A norm is zero only for the zero vector: the division by a zero norm
    is always 0/0. *)
Lemma norm_zero_inv (v : vec xreal) :
  Np.linalg_norm v = Fin 0 → v = fin3 (V3 0 0 0).
Proof.
  destruct (finite_or_nan_norm v) as [[a ->]|Hnan].
  - rewrite norm_fin3. intros [= Hq]. f_equal. apply rdot_self_zero.
    apply sqrt_eq_0; [apply rdot_self_nonneg|done].
  - unfold Np.linalg_norm. by rewrite Hnan.
Qed.

End ExactLemmas.

(** Evaluation on concrete inputs: everything is computed but the real
    operations, whose side conditions are then decided by [lra]. *)
Ltac xcompute :=
  cbv -[Rplus Rminus Rmult Rdiv Ropp Rinv sqrt IZR Req_dec_T Rlt_dec Rabs
        Rlt Rle Rgt Rge].

Ltac decide_real :=
  match goal with
  | |- context [Req_dec_T ?a ?b] =>
      first [ destruct (Req_dec_T a b); [exfalso; lra|]
            | destruct (Req_dec_T a b); [|exfalso; lra] ]
  | |- context [Rlt_dec ?a ?b] =>
      first [ destruct (Rlt_dec a b); [exfalso; lra|]
            | destruct (Rlt_dec a b); [|exfalso; lra] ]
  end; cbv beta iota.

Ltac decide_reals := repeat decide_real.

(** [sqrt_is e c]: rewrite [sqrt e] to [c] when [e = c * c] by [lra]. *)
Ltac sqrt_is e c :=
  let Hs := fresh "Hs" in
  assert (Hs : sqrt e = c)
    by (replace e with (c * c)%R by lra; apply sqrt_square; lra);
  rewrite ?Hs; clear Hs.

Ltac sqrt_to c :=
  match goal with |- context [sqrt ?e] => sqrt_is e c end.

(** [sqrt_arg c]: rewrite the argument of a square root to [c]. *)
Ltac sqrt_arg c :=
  match goal with
  | |- context [sqrt ?e] =>
      lazymatch e with c => fail | _ => replace e with c by lra end
  end.

(** Record [0 < sqrt e] for the square roots of positive arguments. *)
Ltac note_sqrt_pos :=
  repeat match goal with
    | |- context [sqrt ?e] =>
        lazymatch goal with
        | _ : (0 < sqrt e)%R |- _ => fail
        | _ => assert (0 < sqrt e)%R by (apply sqrt_lt_R0; lra)
        end
    end.

Ltac xfinish := repeat (f_equal; try lra).

(** ** Smoothing in exact arithmetic *)

Section SmoothingExact.
Local Open Scope R_scope.

Lemma nan3_not_unit (tol : R) : ¬ unit_within tol Np.nan3.
Proof. by intros (r & Hr & _). Qed.

(** Two opposite vectors, window 2: the second window is [v; -v]. *)
Definition opposite_pair : list (vec xreal) :=
  [fin3 (V3 1 0 0); fin3 (V3 (-1) 0 0)].

Lemma smooth_opposite_pair :
  smooth_vectors opposite_pair 2 1 = Returns [fin3 (V3 1 0 0); Np.nan3].
Proof.
  unfold smooth_vectors. cbn [smooth_passes].
  rewrite smooth_pass_returns by (lia || by left).
  rewrite bind_Returns. f_equal.
  xcompute. decide_reals. repeat sqrt_to 1. repeat sqrt_to 0.
  decide_reals. xfinish.
Qed.

(** C6, as stated, fails: one pass with window 2 over two opposite unit
    vectors returns a NaN row, which has no unit length in any
    tolerance. *)
Lemma smooth_vectors_not_all_unit :
  ∃ out, smooth_vectors opposite_pair 2 1 = Returns out
         ∧ length out = length opposite_pair
         ∧ out !! 1%nat = Some Np.nan3
         ∧ ¬ Forall (unit_within (1 / 1000000)) out.
Proof.
  exists [fin3 (V3 1 0 0); Np.nan3].
  split; [apply smooth_opposite_pair|]. split; [done|]. split; [done|].
  intros Hunit.
  apply Forall_cons in Hunit as [_ Hunit].
  apply Forall_cons in Hunit as [Hnan _].
  by apply nan3_not_unit in Hnan.
Qed.

End SmoothingExact.

(** ** Frame propagation in exact arithmetic *)

Section FramesExact.
Local Open Scope R_scope.

Lemma cross_nan3 (t : vec xreal) : Np.cross t Np.nan3 = Np.nan3.
Proof. by destruct t as [[x|] [y|] [z|]]. Qed.

Lemma normalize_nan3 : normalize (Np.nan3 : vec xreal) = Np.nan3.
Proof. done. Qed.

Definition unit_tangents (rts : list (vec R)) : Prop :=
  Forall (λ t, rdot t t = 1) rts.

End FramesExact.

(** ** The returned frames need not be orthogonal

    Two unit tangents a quarter turn apart: the propagated frames are
    orthonormal, the smoothed binormal at index 1 is not orthogonal to the
    tangent. *)

Section QuarterTurn.
Local Open Scope R_scope.

Definition quarter_turn : list (vec R) := [V3 1 0 0; V3 0 0 1].

Lemma quarter_turn_initial :
  initial_normal (fin3 (V3 1 0 0)) = fin3 (V3 0 (-1) 0).
Proof. xcompute. decide_reals. sqrt_to 1. decide_reals. xfinish. Qed.

Lemma quarter_turn_next :
  normalize (project (fin3 (V3 0 (-1) 0)) (fin3 (V3 0 0 1)))
  = fin3 (V3 0 (-1) 0).
Proof. xcompute. decide_reals. sqrt_to 1. decide_reals. xfinish. Qed.

Lemma propagate_quarter_turn :
  propagate_frames (fin3 <$> quarter_turn)
  = Returns ([fin3 (V3 0 (-1) 0); fin3 (V3 0 (-1) 0)],
             [fin3 (V3 0 0 (-1)); fin3 (V3 1 0 0)]).
Proof.
  change (fin3 <$> quarter_turn) with [fin3 (V3 1 0 0); fin3 (V3 0 0 1)].
  rewrite propagate_frames_returns. unfold normals_of. cbn [transport].
  rewrite quarter_turn_initial, quarter_turn_next.
  xcompute. xfinish.
Qed.

Lemma smooth_quarter_turn_normals :
  smooth_vectors_default [fin3 (V3 0 (-1) 0); fin3 (V3 0 (-1) 0)]
  = Returns [fin3 (V3 0 (-1) 0); fin3 (V3 0 (-1) 0)].
Proof.
  unfold smooth_vectors_default, smooth_vectors. cbn [smooth_passes].
  rewrite smooth_pass_returns by (lia || by left).
  rewrite bind_Returns. f_equal.
  xcompute. decide_reals. repeat sqrt_to 1. decide_reals. xfinish.
Qed.

Lemma smooth_quarter_turn_binormals :
  smooth_vectors_default [fin3 (V3 0 0 (-1)); fin3 (V3 1 0 0)]
  = Returns [fin3 (V3 (2 / 5 / sqrt (13 / 25)) 0 (- (3 / 5) / sqrt (13 / 25)));
             fin3 (V3 (1 / 2 / sqrt (1 / 2)) 0 (- (1 / 2) / sqrt (1 / 2)))].
Proof.
  unfold smooth_vectors_default, smooth_vectors. cbn [smooth_passes].
  rewrite smooth_pass_returns by (lia || by left).
  rewrite bind_Returns. f_equal.
  xcompute. decide_reals.
  sqrt_arg (13 / 25). sqrt_arg (1 / 2). note_sqrt_pos. decide_reals.
  xfinish.
Qed.

Lemma compute_MRF_quarter_turn :
  compute_MRF (fin3 <$> quarter_turn)
  = Returns
      ([fin3 (V3 0 (-1) 0); fin3 (V3 0 (-1) 0)],
       [fin3 (V3 (2 / 5 / sqrt (13 / 25)) 0 (- (3 / 5) / sqrt (13 / 25)));
        fin3 (V3 (1 / 2 / sqrt (1 / 2)) 0 (- (1 / 2) / sqrt (1 / 2)))]).
Proof.
  unfold compute_MRF. rewrite propagate_quarter_turn, bind_Returns.
  by rewrite smooth_quarter_turn_normals, bind_Returns,
             smooth_quarter_turn_binormals.
Qed.

Lemma sqrt_half_bounds : 0 < sqrt (1 / 2) < 1.
Proof.
  assert (0 < sqrt (1 / 2)) by (apply sqrt_lt_R0; lra).
  assert (Hlt : sqrt (1 / 2) < sqrt 1) by (apply sqrt_lt_1; lra).
  rewrite sqrt_1 in Hlt. done.
Qed.

(** C1, as stated, fails: on two unit tangents a quarter turn apart the
    returned binormal at index 1 has |tangent . binormal| = 1/sqrt 2,
    far above 1e-3. *)
Lemma returned_frames_not_orthogonal :
  unit_tangents quarter_turn
  ∧ ∃ ns bs b,
      compute_MRF (fin3 <$> quarter_turn) = Returns (ns, bs)
      ∧ bs !! 1%nat = Some b
      ∧ ¬ dot_within (1 / 1000) (fin3 (V3 0 0 1)) b.
Proof.
  split; [repeat constructor; unfold rdot; simpl; lra|].
  eexists _, _, _. split; [apply compute_MRF_quarter_turn|].
  split; [done|]. intros (r & Hr & Hsmall).
  rewrite dot_fin3 in Hr. injection Hr as <-.
  unfold rdot in Hsmall. simpl in Hsmall.
  pose proof sqrt_half_bounds as [Hpos Hlt].
  set (s := sqrt (1 / 2)) in *.
  assert (Hq : 0 * (1 / 2 / s) + 0 * 0 + 1 * (- (1 / 2) / s) = - (1 / 2 / s))
    by (field; lra).
  rewrite Hq, Rabs_Ropp, Rabs_pos_eq in Hsmall.
  - assert (1 / 2 < 1 / 2 / s).
    { apply (Rmult_lt_reg_r s); [done|].
      replace (1 / 2 / s * s) with (1 / 2) by (field; lra). nra. }
    lra.
  - apply Rlt_le, Rdiv_lt_0_compat; lra.
Qed.
End QuarterTurn.

(** ** Tangent estimation in exact arithmetic *)

Section TangentsExact.
Local Open Scope R_scope.

(** No two consecutive points coincide. *)
Definition no_repeat (rpts : list (vec R)) : Prop :=
  ∀ i p q, rpts !! i = Some p → rpts !! S i = Some q → p ≠ q.

Definition rsub (q p : vec R) : vec R :=
  V3 (vx q - vx p) (vy q - vy p) (vz q - vz p).

Lemma vsub_fin3 (q p : vec R) :
  Np.vsub (fin3 q) (fin3 p) = fin3 (rsub q p).
Proof. done. Qed.

Lemma rsub_nonzero (q p : vec R) : p ≠ q → rdot (rsub q p) (rsub q p) ≠ 0.
Proof.
  intros Hne Hz. apply rdot_self_zero in Hz. apply Hne.
  destruct p as [px py pz], q as [qx qy qz].
  unfold rsub in Hz. simpl in Hz. injection Hz as Hx Hy Hz.
  f_equal; lra.
Qed.

End TangentsExact.

(** ** Resampling in exact arithmetic *)

Section Distances.
Local Open Scope R_scope.

Definition rdiff (rpts : list (vec R)) : list (vec R) :=
  zip_with (λ p q, rsub q p) rpts (tail rpts).

Definition rnorm (a : vec R) : R := sqrt (rdot a a).

Fixpoint rcumsum_from (acc : R) (l : list R) : list R :=
  match l with
  | [] => []
  | x :: l' => (acc + x) :: rcumsum_from (acc + x) l'
  end.

(** The cumulative chord length of line 32 on finite points. *)
Definition rdistance (rpts : list (vec R)) : list R :=
  0 :: rcumsum_from 0 (rnorm <$> rdiff rpts).

Lemma diff_fin3 (rpts : list (vec R)) :
  Np.diff (fin3 <$> rpts) = fin3 <$> rdiff rpts.
Proof.
  unfold Np.diff, rdiff.
  induction rpts as [|p [|q rpts] IH]; [done|done|].
  change (Np.vsub (fin3 q) (fin3 p)
            :: zip_with (λ p q, Np.vsub q p) (fin3 <$> q :: rpts)
                 (tail (fin3 <$> q :: rpts))
          = fin3 (rsub q p)
            :: (fin3 <$> zip_with (λ p q, rsub q p) (q :: rpts)
                           (tail (q :: rpts)))).
  by rewrite IH.
Qed.

Lemma cumsum_from_fin (a : R) (l : list R) :
  Np.cumsum_from (Fin a) (Fin <$> l) = Fin <$> rcumsum_from a l.
Proof.
  revert a. induction l as [|x l IH]; intros a; [done|].
  csimpl. by rewrite <- IH.
Qed.

Lemma distance_fin3 (rpts : list (vec R)) :
  Np.cumsum (of_Z 0 :: (Np.linalg_norm <$> Np.diff (fin3 <$> rpts)))
  = Fin <$> rdistance rpts.
Proof.
  rewrite diff_fin3. unfold rdistance, Np.cumsum.
  rewrite <- list_fmap_compose.
  rewrite (list_fmap_ext (Np.linalg_norm ∘ fin3) (Fin ∘ rnorm) (rdiff rpts))
    by (intros _ a _; apply norm_fin3).
  rewrite list_fmap_compose. csimpl.
  by rewrite <- cumsum_from_fin.
Qed.

Lemma length_rcumsum_from a l : length (rcumsum_from a l) = length l.
Proof. revert a. induction l as [|x l IH]; intros a; simpl; auto. Qed.

Lemma length_rdiff (rpts : list (vec R)) :
  length (rdiff rpts) = (length rpts - 1)%nat.
Proof.
  unfold rdiff. rewrite length_zip_with.
  destruct rpts; [done|]. cbn [tail length]. lia.
Qed.

Lemma length_rdistance (rpts : list (vec R)) :
  length (rdistance rpts) = S (length rpts - 1).
Proof.
  unfold rdistance. simpl.
  by rewrite length_rcumsum_from, length_fmap, length_rdiff.
Qed.

Lemma lookup_rcumsum (a : R) (l : list R) i x y :
  (a :: rcumsum_from a l) !! i = Some x → l !! i = Some y →
  (a :: rcumsum_from a l) !! S i = Some (x + y).
Proof.
  revert a i. induction l as [|z l IH]; intros a i Hx Hy; [done|].
  destruct i as [|i]; simpl in *.
  - by simplify_eq.
  - by apply IH.
Qed.

Lemma lookup_rdiff (rpts : list (vec R)) i p q :
  rpts !! i = Some p → rpts !! S i = Some q →
  rdiff rpts !! i = Some (rsub q p).
Proof.
  intros Hp Hq. unfold rdiff.
  by rewrite lookup_zip_with, lookup_tail, Hp, Hq.
Qed.

(** Consecutive distances differ by the chord between the points. *)
Lemma rdistance_step (rpts : list (vec R)) i p q d :
  rpts !! i = Some p → rpts !! S i = Some q →
  rdistance rpts !! i = Some d →
  rdistance rpts !! S i = Some (d + rnorm (rsub q p)).
Proof.
  intros Hp Hq Hd. apply lookup_rcumsum; [done|].
  by rewrite list_lookup_fmap, (lookup_rdiff _ _ _ _ Hp Hq).
Qed.

Lemma rnorm_nonneg (a : vec R) : 0 <= rnorm a.
Proof. apply sqrt_pos. Qed.

Lemma rnorm_pos (q p : vec R) : p ≠ q → 0 < rnorm (rsub q p).
Proof.
  intros Hne. apply sqrt_lt_R0.
  pose proof (rdot_self_nonneg (rsub q p)).
  pose proof (rsub_nonzero q p Hne). lra.
Qed.

(** The total chord length, [distance[-1]]. *)
Definition rtotal (rpts : list (vec R)) : R :=
  default 0 (last (rdistance rpts)).

(** Line 34 on finite points with a non-zero total length. *)
Definition rdistance_normalized (rpts : list (vec R)) : list R :=
  (λ d, d / rtotal rpts) <$> rdistance rpts.

Lemma last_distance_fin3 (rpts : list (vec R)) :
  default (of_Z 0) (last (Fin <$> rdistance rpts)) = Fin (rtotal rpts).
Proof.
  unfold rtotal. rewrite fmap_last.
  by destruct (last (rdistance rpts)).
Qed.

Lemma distance_normalized_fin (rpts : list (vec R)) :
  rtotal rpts ≠ 0 →
  (λ d, fdiv d (Fin (rtotal rpts))) <$> (Fin <$> rdistance rpts)
  = Fin <$> rdistance_normalized rpts.
Proof.
  intros HL. unfold rdistance_normalized.
  rewrite <- !list_fmap_compose. apply list_fmap_ext.
  intros _ d _. simpl. by apply xdiv_fin.
Qed.

Definition strictly_increasing (rx : list R) : Prop :=
  ∀ i a b, rx !! i = Some a → rx !! S i = Some b → a < b.

Lemma rdistance_points (rpts : list (vec R)) i b :
  rdistance rpts !! S i = Some b →
  ∃ p q, rpts !! i = Some p ∧ rpts !! S i = Some q.
Proof.
  intros Hb. apply lookup_lt_Some in Hb. rewrite length_rdistance in Hb.
  destruct (lookup_lt_is_Some_2 rpts i) as [p Hp]; [lia|].
  destruct (lookup_lt_is_Some_2 rpts (S i)) as [q Hq]; [lia|].
  by exists p, q.
Qed.

Lemma rdistance_increasing (rpts : list (vec R)) :
  no_repeat rpts → strictly_increasing (rdistance rpts).
Proof.
  intros Hnr i a b Ha Hb.
  destruct (rdistance_points _ _ _ Hb) as (p & q & Hp & Hq).
  rewrite (rdistance_step _ _ _ _ _ Hp Hq Ha) in Hb. injection Hb as <-.
  pose proof (rnorm_pos q p (Hnr _ _ _ Hp Hq)). lra.
Qed.

Lemma rdistance_monotone (rpts : list (vec R)) i j a b :
  (i ≤ j)%nat → rdistance rpts !! i = Some a → rdistance rpts !! j = Some b →
  a <= b.
Proof.
  intros Hij Ha. revert b. induction Hij as [|j Hij IH]; intros b Hb.
  - rewrite Ha in Hb. injection Hb as <-. lra.
  - destruct (lookup_lt_is_Some_2 (rdistance rpts) j) as [c Hc];
      [apply lookup_lt_Some in Hb; lia|].
    destruct (rdistance_points _ _ _ Hb) as (p & q & Hp & Hq).
    rewrite (rdistance_step _ _ _ _ _ Hp Hq Hc) in Hb. injection Hb as <-.
    pose proof (IH c Hc). pose proof (rnorm_nonneg (rsub q p)). lra.
Qed.

Lemma rtotal_lookup (rpts : list (vec R)) :
  rdistance rpts !! (length rpts - 1)%nat = Some (rtotal rpts).
Proof.
  unfold rtotal. rewrite last_lookup, length_rdistance. simpl.
  destruct (lookup_lt_is_Some_2 (rdistance rpts) (length rpts - 1)) as [c Hc];
    [rewrite length_rdistance; lia|].
  by rewrite Hc.
Qed.

Lemma rtotal_pos (rpts : list (vec R)) :
  (2 ≤ length rpts)%nat → no_repeat rpts → 0 < rtotal rpts.
Proof.
  intros Hlen Hnr.
  destruct (lookup_lt_is_Some_2 (rdistance rpts) 1) as [c Hc];
    [rewrite length_rdistance; lia|].
  assert (0 < c) by (by apply (rdistance_increasing rpts Hnr 0%nat 0 c)).
  pose proof (rdistance_monotone rpts 1 (length rpts - 1) c (rtotal rpts)
                ltac:(lia) Hc (rtotal_lookup rpts)).
  lra.
Qed.

Lemma rdistance_normalized_increasing (rpts : list (vec R)) :
  (2 ≤ length rpts)%nat → no_repeat rpts →
  strictly_increasing (rdistance_normalized rpts).
Proof.
  intros Hlen Hnr i a b. unfold rdistance_normalized.
  rewrite !list_lookup_fmap.
  destruct (rdistance rpts !! i) as [a'|] eqn:Ha; [|done].
  destruct (rdistance rpts !! S i) as [b'|] eqn:Hb; [|done].
  simpl. intros [= <-] [= <-].
  pose proof (rtotal_pos rpts Hlen Hnr).
  pose proof (rdistance_increasing rpts Hnr i a' b' Ha Hb).
  apply Rmult_lt_compat_r; [|done]. by apply Rinv_0_lt_compat.
Qed.
End Distances.

(** ** The spline library

    [scipy.interpolate.CubicSpline] is not part of the repository; the
    script relies on its documented contract.  The knots [x] must be at
    least two finite values in strictly increasing order, with as many
    finite values [y]; the constructor raises ValueError otherwise, and the
    fitted spline passes through every knot. *)

Definition spline_accepts (xs ys : list xreal) : Prop :=
  ∃ rx ry, xs = Fin <$> rx ∧ ys = Fin <$> ry
           ∧ 2 ≤ length rx ∧ length rx = length ry
           ∧ strictly_increasing rx.

Definition interpolates (f : xreal → xreal) (xs ys : list xreal) : Prop :=
  ∀ i x y, xs !! i = Some x → ys !! i = Some y → f x = y.

Record spline_contract
    (CS : list xreal → list xreal → outcome (xreal → xreal)) : Prop := {
  spline_fits : ∀ xs ys, spline_accepts xs ys →
    ∃ f, CS xs ys = Returns f ∧ interpolates f xs ys;
  spline_rejects : ∀ xs ys, ¬ spline_accepts xs ys →
    CS xs ys = Raises ValueError
}.

Section Resampling.
Local Open Scope R_scope.
Variable CubicSpline : list xreal → list xreal → outcome (xreal → xreal).
Hypothesis contract : spline_contract CubicSpline.

#[local] Instance Fin_inj : Inj (=) (=) Fin.
Proof. by intros x y [=]. Qed.

Lemma coordinate_fin3 (c : ∀ F, vec F → F) (rpts : list (vec R)) :
  (∀ a, c xreal (fin3 a) = Fin (c R a)) →
  c xreal <$> (fin3 <$> rpts) = Fin <$> (c R <$> rpts).
Proof.
  intros Hc. rewrite <- !list_fmap_compose. apply list_fmap_ext.
  intros _ a _. apply Hc.
Qed.

Lemma knots_accepted (rpts : list (vec R)) (ry : list R) :
  (2 ≤ length rpts)%nat → no_repeat rpts → length ry = length rpts →
  spline_accepts (Fin <$> rdistance_normalized rpts) (Fin <$> ry).
Proof.
  intros Hlen Hnr Hry. exists (rdistance_normalized rpts), ry.
  split; [done|]. split; [done|].
  assert (length (rdistance_normalized rpts) = length rpts) as Hl.
  { unfold rdistance_normalized. rewrite length_fmap, length_rdistance. lia. }
  rewrite Hl. split; [done|]. split; [done|].
  by apply rdistance_normalized_increasing.
Qed.

(** The body of [interpolate_line] once the chord lengths are known. *)
Lemma interpolate_line_unfold (rpts : list (vec R)) num :
  interpolate_line CubicSpline (fin3 <$> rpts) num
  = let dn := (λ d, fdiv d (Fin (rtotal rpts))) <$> (Fin <$> rdistance rpts) in
    spline_x ← CubicSpline dn (Fin <$> (vx <$> rpts));
    spline_y ← CubicSpline dn (Fin <$> (vy <$> rpts));
    spline_z ← CubicSpline dn (Fin <$> (vz <$> rpts));
    Returns ((λ u, V3 (spline_x u) (spline_y u) (spline_z u))
               <$> Np.linspace01 (default (length rpts) num)).
Proof.
  unfold interpolate_line. cbv zeta.
  rewrite distance_fin3, last_distance_fin3, length_fmap.
  by rewrite (coordinate_fin3 (@vx)), (coordinate_fin3 (@vy)),
             (coordinate_fin3 (@vz)).
Qed.

Lemma interpolate_line_returns (rpts : list (vec R)) num :
  (2 ≤ length rpts)%nat → no_repeat rpts →
  ∃ sx sy sz,
    interpolate_line CubicSpline (fin3 <$> rpts) num
    = Returns ((λ u, V3 (sx u) (sy u) (sz u))
                 <$> Np.linspace01 (default (length rpts) num))
    ∧ interpolates sx (Fin <$> rdistance_normalized rpts) (Fin <$> (vx <$> rpts))
    ∧ interpolates sy (Fin <$> rdistance_normalized rpts) (Fin <$> (vy <$> rpts))
    ∧ interpolates sz (Fin <$> rdistance_normalized rpts) (Fin <$> (vz <$> rpts)).
Proof.
  intros Hlen Hnr. rewrite interpolate_line_unfold. cbv zeta.
  pose proof (rtotal_pos rpts Hlen Hnr) as HL.
  rewrite distance_normalized_fin by lra.
  destruct (spline_fits _ contract _ _
              (knots_accepted rpts (vx <$> rpts) Hlen Hnr (length_fmap _ _)))
    as (sx & -> & Hx).
  destruct (spline_fits _ contract _ _
              (knots_accepted rpts (vy <$> rpts) Hlen Hnr (length_fmap _ _)))
    as (sy & -> & Hy).
  destruct (spline_fits _ contract _ _
              (knots_accepted rpts (vz <$> rpts) Hlen Hnr (length_fmap _ _)))
    as (sz & -> & Hz).
  by exists sx, sy, sz.
Qed.

(** *** The sample parameters *)

Lemma linspace01_one : Np.linspace01 1 = [Fin (0 * (1 - 0) + 0)].
Proof. done. Qed.

(** The resampled point at a parameter that is a knot. *)
Lemma resampled_at_knot sx sy sz (rpts : list (vec R)) i d p t :
  interpolates sx (Fin <$> rdistance_normalized rpts) (Fin <$> (vx <$> rpts)) →
  interpolates sy (Fin <$> rdistance_normalized rpts) (Fin <$> (vy <$> rpts)) →
  interpolates sz (Fin <$> rdistance_normalized rpts) (Fin <$> (vz <$> rpts)) →
  rdistance rpts !! i = Some d → rpts !! i = Some p →
  t = d / rtotal rpts →
  V3 (sx (Fin t)) (sy (Fin t)) (sz (Fin t)) = fin3 p.
Proof.
  intros Hx Hy Hz Hd Hp ->.
  assert (Hk : (Fin <$> rdistance_normalized rpts) !! i
               = Some (Fin (d / rtotal rpts))).
  { unfold rdistance_normalized. by rewrite !list_lookup_fmap, Hd. }
  unfold fin3. f_equal.
  - apply (Hx i); [done|]. by rewrite !list_lookup_fmap, Hp.
  - apply (Hy i); [done|]. by rewrite !list_lookup_fmap, Hp.
  - apply (Hz i); [done|]. by rewrite !list_lookup_fmap, Hp.
Qed.

Lemma single_sample (rpts : list (vec R)) :
  (2 ≤ length rpts)%nat → no_repeat rpts →
  interpolate_line CubicSpline (fin3 <$> rpts) (Some 1%nat)
  = Returns (fin3 <$> take 1 rpts).
Proof.
  intros Hlen Hnr.
  destruct (interpolate_line_returns rpts (Some 1%nat) Hlen Hnr)
    as (sx & sy & sz & -> & Hx & Hy & Hz).
  destruct rpts as [|p0 rpts]; [simpl in Hlen; lia|].
  pose proof (rtotal_pos _ Hlen Hnr).
  change (default (length (p0 :: rpts)) (Some 1%nat)) with 1%nat.
  rewrite linspace01_one. cbn [fmap list_fmap take].
  f_equal. f_equal.
  apply (resampled_at_knot sx sy sz (p0 :: rpts) 0 0 p0); try done.
  field. lra.
Qed.

End Resampling.

(** ** An interpolant that meets the contract

    The piecewise-linear interpolant through the knots, behind the
    library's input validation.  It shows the contract is satisfiable and
    lets [interpolate_line] be evaluated on concrete curves. *)

Section LinearSpline.
Local Open Scope R_scope.

#[local] Instance Rlt_decision : RelDecision Rlt := Rlt_dec.

Fixpoint reals_of (xs : list xreal) : option (list R) :=
  match xs with
  | [] => Some []
  | Fin r :: xs' => cons r <$> reals_of xs'
  | NaN :: _ => None
  end.

Fixpoint increasingb (rx : list R) : bool :=
  match rx with
  | a :: rx' =>
      match rx' with
      | b :: _ => bool_decide (a < b) && increasingb rx'
      | [] => true
      end
  | [] => true
  end.

Fixpoint chord (rx ry : list R) (t : R) : R :=
  match rx, ry with
  | a :: rx', c :: ry' =>
      match rx', ry' with
      | b :: _, d :: _ =>
          if Rlt_dec t b then c + (t - a) * ((d - c) / (b - a))
          else chord rx' ry' t
      | _, _ => c
      end
  | _, _ => 0
  end.

Definition linear_spline (xs ys : list xreal) : outcome (xreal → xreal) :=
  match reals_of xs, reals_of ys with
  | Some rx, Some ry =>
      if bool_decide (2 ≤ length rx)%nat
         && bool_decide (length rx = length ry)
         && increasingb rx
      then Returns (λ u, match u with
                         | Fin t => Fin (chord rx ry t)
                         | NaN => NaN
                         end)
      else Raises ValueError
  | _, _ => Raises ValueError
  end.

Lemma reals_of_fmap (rx : list R) : reals_of (Fin <$> rx) = Some rx.
Proof. induction rx as [|r rx IH]; [done|]. csimpl. by rewrite IH. Qed.

Lemma reals_of_Some (xs : list xreal) (rx : list R) :
  reals_of xs = Some rx → xs = Fin <$> rx.
Proof.
  revert rx. induction xs as [|[r|] xs IH]; intros rx Hrx; simpl in Hrx.
  - by injection Hrx as <-.
  - destruct (reals_of xs) as [rx'|]; [|done]. simpl in Hrx.
    injection Hrx as <-. csimpl. by rewrite <- IH.
  - done.
Qed.

Lemma strictly_increasing_cons (a b : R) (rx : list R) :
  strictly_increasing (a :: b :: rx) ↔ a < b ∧ strictly_increasing (b :: rx).
Proof.
  split.
  - intros Hinc. split; [by apply (Hinc 0%nat)|].
    intros i x y Hx Hy. by apply (Hinc (S i)).
  - intros [Hab Hinc] [|i] x y Hx Hy.
    + simpl in Hx, Hy. by simplify_eq.
    + by apply (Hinc i).
Qed.

Lemma increasingb_spec (rx : list R) :
  increasingb rx = true ↔ strictly_increasing rx.
Proof.
  induction rx as [|a [|b rx] IH].
  - split; [|done]. by intros _ i x y Hx.
  - split; [|done]. by intros _ [|i] x y Hx Hy.
  - change (increasingb (a :: b :: rx))
      with (bool_decide (a < b) && increasingb (b :: rx)).
    rewrite andb_true_iff, bool_decide_eq_true, IH.
    by rewrite strictly_increasing_cons.
Qed.

Lemma strictly_increasing_lower (b : R) (rx : list R) i x :
  strictly_increasing (b :: rx) → (b :: rx) !! i = Some x → b <= x.
Proof.
  intros Hinc. revert x. induction i as [|i IH]; intros x Hx.
  - simpl in Hx. injection Hx as <-. lra.
  - destruct (lookup_lt_is_Some_2 (b :: rx) i) as [y Hy];
      [apply lookup_lt_Some in Hx; lia|].
    pose proof (IH y Hy). pose proof (Hinc i y x Hy Hx). lra.
Qed.

Lemma chord_knot (rx ry : list R) i x y :
  strictly_increasing rx → rx !! i = Some x → ry !! i = Some y →
  chord rx ry x = y.
Proof.
  revert ry i. induction rx as [|a rx IH]; intros ry i Hinc Hx Hy; [done|].
  destruct ry as [|c ry]; [done|].
  destruct rx as [|b rx].
  - destruct i as [|i]; [|done]. simpl in *. by simplify_eq.
  - destruct ry as [|d ry].
    + destruct i as [|i]; [|done]. simpl in *. by simplify_eq.
    + apply strictly_increasing_cons in Hinc as [Hab Hinc].
      change (chord (a :: b :: rx) (c :: d :: ry) x)
        with (if Rlt_dec x b then c + (x - a) * ((d - c) / (b - a))
              else chord (b :: rx) (d :: ry) x).
      destruct i as [|i].
      * simpl in Hx, Hy. simplify_eq.
        destruct (Rlt_dec x b); [|done]. ring.
      * pose proof (strictly_increasing_lower b rx i x Hinc Hx).
        destruct (Rlt_dec x b); [lra|]. by apply (IH (d :: ry) i).
Qed.

Lemma linear_spline_contract : spline_contract linear_spline.
Proof.
  split.
  - intros xs ys (rx & ry & -> & -> & Hlen & Hlen' & Hinc).
    unfold linear_spline. rewrite !reals_of_fmap.
    rewrite !bool_decide_eq_true_2 by done.
    rewrite (proj2 (increasingb_spec rx) Hinc). simpl.
    eexists. split; [done|]. intros i x y Hx Hy.
    rewrite list_lookup_fmap in Hx, Hy.
    destruct (rx !! i) as [a|] eqn:Ha; [|done].
    destruct (ry !! i) as [c|] eqn:Hc; [|done].
    simpl in Hx, Hy. simplify_eq. f_equal. by eapply chord_knot.
  - intros xs ys Hrej. unfold linear_spline.
    destruct (reals_of xs) as [rx|] eqn:Hxs; [|done].
    destruct (reals_of ys) as [ry|] eqn:Hys; [|done].
    destruct (bool_decide (2 ≤ length rx)%nat && _ && _) eqn:Hok; [|done].
    exfalso. apply Hrej.
    apply andb_true_iff in Hok as [Hok Hinc].
    apply andb_true_iff in Hok as [Hlen Hlen'].
    apply bool_decide_eq_true in Hlen, Hlen'.
    apply increasingb_spec in Hinc.
    exists rx, ry. by rewrite (reals_of_Some _ _ Hxs), (reals_of_Some _ _ Hys).
Qed.
End LinearSpline.

(** ** Resampling on concrete curves *)

Section ResamplingExamples.
Local Open Scope R_scope.

Lemma no_repeat_cons (p q : vec R) (l : list (vec R)) :
  p ≠ q → no_repeat (q :: l) → no_repeat (p :: q :: l).
Proof.
  intros Hpq Hl [|i] a b Ha Hb.
  - simpl in Ha, Hb. by simplify_eq.
  - by apply (Hl i).
Qed.

Lemma no_repeat_one (p : vec R) : no_repeat [p].
Proof. by intros [|i] a b Ha Hb. Qed.

Definition bent_line : list (vec R) := [V3 0 0 0; V3 3 4 0; V3 3 4 2].

Lemma bent_line_no_repeat : no_repeat bent_line.
Proof.
  unfold bent_line.
  repeat (apply no_repeat_cons; [intros [=]; lra|]). apply no_repeat_one.
Defined.

(** C7, as stated, fails: a request for a single point on a
    non-degenerate polyline is not rejected; with a spline that meets
    the library's contract the call returns the first input point. *)
Lemma single_point_request_served :
  spline_contract linear_spline
  ∧ interpolate_line linear_spline (fin3 <$> bent_line) (Some 1%nat)
    = Returns [fin3 (V3 0 0 0)]
  ∧ ¬ raises
        (interpolate_line linear_spline (fin3 <$> bent_line) (Some 1%nat)).
Proof.
  assert (Hret : interpolate_line linear_spline (fin3 <$> bent_line)
                   (Some 1%nat) = Returns [fin3 (V3 0 0 0)]).
  { rewrite (single_sample linear_spline linear_spline_contract bent_line);
      [done|simpl; lia|apply bent_line_no_repeat]. }
  split; [apply linear_spline_contract|]. split; [done|].
  rewrite Hret. by intros [e He].
Qed.
End ResamplingExamples.

(** ** Zero vectors are not reported *)

Section ZeroVectors.
Local Open Scope R_scope.

Definition doubled_point : list (vec R) := [V3 1 2 3; V3 1 2 3].

Lemma normalized_doubled_point :
  normalized_differences (fin3 <$> doubled_point)
  = Returns [Np.nan3; Np.nan3].
Proof.
  xcompute. decide_reals. repeat sqrt_to 0. decide_reals. done.
Qed.

Lemma smooth_nan_pair :
  smooth_vectors_default ([Np.nan3; Np.nan3] : list (vec xreal))
  = Returns [Np.nan3; Np.nan3].
Proof. done. Qed.

(** C8, as stated, fails: two coincident points give a zero difference,
    and tangent estimation returns NaN rows instead of raising. *)
Lemma zero_difference_returns_nan :
  compute_tangent_vectors (fin3 <$> doubled_point)
  = Returns [Np.nan3; Np.nan3]
  ∧ ¬ raises (compute_tangent_vectors (fin3 <$> doubled_point)).
Proof.
  assert (Hret : compute_tangent_vectors (fin3 <$> doubled_point)
                 = Returns [Np.nan3; Np.nan3]).
  { unfold compute_tangent_vectors.
    by rewrite normalized_doubled_point, bind_Returns, smooth_nan_pair. }
  split; [done|]. rewrite Hret. by intros [e He].
Qed.

Lemma zero_difference_nan (rpts : list (vec R)) i p :
  rpts !! i = Some p → rpts !! S i = Some p →
  ∃ ts, normalized_differences (fin3 <$> rpts) = Returns ts
        ∧ ts !! i = Some Np.nan3.
Proof.
  intros Hp Hq.
  assert (HD : Np.diff (fin3 <$> rpts) !! i = Some (fin3 (V3 0 0 0))).
  { rewrite (lookup_diff _ i (fin3 p) (fin3 p))
      by (by rewrite list_lookup_fmap, ?Hp, ?Hq).
    rewrite vsub_fin3. do 2 f_equal.
    destruct p. unfold rsub. simpl. f_equal; ring. }
  assert (is_Some (last (Np.diff (fin3 <$> rpts)))) as [d Hd].
  { apply last_is_Some. intros Hnil. by rewrite Hnil in HD. }
  rewrite (normalized_differences_returns _ _ Hd).
  eexists. split; [done|].
  rewrite list_lookup_fmap, (lookup_app_l_Some _ _ _ _ HD). simpl.
  by rewrite normalize_zero.
Qed.

Lemma vertical_tangent_nan (z : R) (ts : list (vec xreal)) :
  ∃ ns bs, propagate_frames (fin3 (V3 0 0 z) :: ts) = Returns (ns, bs)
           ∧ ns !! 0%nat = Some Np.nan3.
Proof.
  rewrite propagate_frames_returns. eexists _, _. split; [done|].
  unfold normals_of. cbn [lookup list_lookup]. f_equal.
  change (initial_normal (fin3 (V3 0 0 z)))
    with (normalize (fin3 (V3 0 (- 0) 0))).
  replace (- 0) with 0 by ring. apply normalize_zero.
Qed.

(** C8, amended: no normalization step raises.  Tangent estimation (on
    at least 2 points) and frame propagation (on at least 1 tangent)
    always return; a zero difference or a zero initial normal gives a
    NaN row, silently; the placeholder normalization of
    [compute_normal_vectors] replaces each row of norm below 1e-6 by the
    zero row. *)
Theorem zero_vectors_not_reported :
  (∀ pts : list (vec xreal), (2 ≤ length pts)%nat →
     ∃ out, compute_tangent_vectors pts = Returns out
            ∧ length out = length pts)
  ∧ (∀ ts : list (vec xreal), ts ≠ [] →
     ∃ ns bs, compute_MRF ts = Returns (ns, bs)
              ∧ length ns = length ts ∧ length bs = length ts)
  ∧ (∀ (rpts : list (vec R)) i p,
       rpts !! i = Some p → rpts !! S i = Some p →
       ∃ ts, normalized_differences (fin3 <$> rpts) = Returns ts
             ∧ ts !! i = Some Np.nan3)
  ∧ (∀ (z : R) (ts : list (vec xreal)),
       ∃ ns bs, propagate_frames (fin3 (V3 0 0 z) :: ts) = Returns (ns, bs)
                ∧ ns !! 0%nat = Some Np.nan3)
  ∧ (∀ (a : list (vec xreal)) i v,
       a !! i = Some v → fltb (Np.linalg_norm v) eps = true →
       normalize_with_placeholder a !! i = Some Np.zero3).
Proof.
  split; [apply @compute_tangent_vectors_returns|].
  split; [apply @compute_MRF_returns|].
  split; [apply zero_difference_nan|].
  split; [apply vertical_tangent_nan|].
  apply @placeholder_row.
Qed.
End ZeroVectors.

(** ** The straight segment *)

Section StraightLine.
Local Open Scope R_scope.

(** Ten copies of a finite row average to the row. *)
Lemma mean_ten (u : vec R) :
  Np.mean (replicate 10 (fin3 u)) = fin3 u.
Proof.
  destruct u as [x y z]. xcompute. decide_reals. xfinish.
Qed.

Lemma normalize_unit_id (u : vec R) :
  rdot u u = 1 → normalize (fin3 u) = fin3 u.
Proof.
  intros Hu. rewrite normalize_fin3 by lra. cbv zeta.
  rewrite Hu, sqrt_1. destruct u as [x y z]. simpl.
  unfold fin3. simpl. repeat f_equal; lra.
Qed.

Lemma constant_window (n i : nat) (v : vec xreal) :
  (i < n)%nat →
  forward_window (edge_padded 5 (replicate n v)) 10 i = replicate 10 v.
Proof.
  intros Hi. unfold forward_window, edge_padded.
  destruct n as [|n]; [lia|].
  assert (head (replicate (S n) v) = Some v) as -> by done.
  assert (last (replicate (S n) v) = Some v) as ->.
  { rewrite replicate_S_end. apply last_snoc. }
  simpl default. rewrite <- !replicate_add.
  rewrite drop_replicate, take_replicate. f_equal. lia.
Qed.

(** Smoothing a constant sequence of unit vectors returns it. *)
Lemma smooth_constant (n : nat) (u : vec R) :
  (1 ≤ n)%nat → rdot u u = 1 →
  smooth_vectors_default (replicate n (fin3 u))
  = Returns (replicate n (fin3 u)).
Proof.
  intros Hn Hu.
  destruct (smooth_default_returns (replicate n (fin3 u))) as [-> _].
  { destruct n; [lia|done]. }
  f_equal. unfold spec_smooth. simpl Nat.iter. unfold spec_pass.
  change (Z.to_nat (10 `div` 2)) with 5%nat.
  change (Z.to_nat 10) with 10%nat.
  rewrite length_replicate.
  rewrite (list_fmap_ext _ (λ _, fin3 u) (seq 0 n)).
  - by rewrite (const_fmap _ (seq 0 n) (fin3 u)), length_seq.
  - intros j i Hi. apply lookup_seq in Hi as [-> Hj]. simpl.
    rewrite constant_window by done.
    by rewrite mean_ten, normalize_unit_id.
Qed.

(** Transport along a constant tangent keeps a normal that is already
    orthogonal to it. *)
Lemma transport_constant (k : nat) (t n : vec xreal) :
  normalize (project n t) = n →
  transport n (replicate k t) = replicate k n.
Proof.
  intros Hfix. induction k as [|k IH]; [done|].
  simpl. rewrite Hfix. by rewrite IH.
Qed.

(** Eleven points evenly spaced from (0,0,0) to (10,0,0). *)
Definition straight_line : list (vec R) :=
  (λ k, V3 (IZR (Z.of_nat k)) 0 0) <$> seq 0 11.

Lemma straight_line_no_repeat : no_repeat straight_line.
Proof.
  cbv -[IZR no_repeat].
  repeat (apply no_repeat_cons; [intros [=]; lra|]). apply no_repeat_one.
Defined.

Lemma straight_line_distance :
  rdistance straight_line = [0; 1; 2; 3; 4; 5; 6; 7; 8; 9; 10].
Proof. xcompute. repeat sqrt_to 1. xfinish. Qed.

Lemma straight_line_total : rtotal straight_line = 10.
Proof. unfold rtotal. by rewrite straight_line_distance. Qed.

(** The uniform parameters are exactly the knots. *)
Lemma straight_line_parameters :
  Np.linspace01 (length straight_line)
  = Fin <$> rdistance_normalized straight_line.
Proof.
  unfold rdistance_normalized.
  rewrite straight_line_distance, straight_line_total.
  xcompute. decide_reals. xfinish.
Qed.

Lemma straight_line_differences :
  normalized_differences (fin3 <$> straight_line)
  = Returns (replicate 11 (fin3 (V3 1 0 0))).
Proof.
  xcompute. decide_reals. repeat sqrt_to 1. decide_reals. xfinish.
Qed.

Lemma straight_line_tangents :
  compute_tangent_vectors (fin3 <$> straight_line)
  = Returns (replicate 11 (fin3 (V3 1 0 0))).
Proof.
  unfold compute_tangent_vectors.
  rewrite straight_line_differences, bind_Returns.
  apply smooth_constant; [lia|]. unfold rdot. simpl. lra.
Qed.

Lemma straight_line_transport :
  normalize (project (fin3 (V3 0 (-1) 0)) (fin3 (V3 1 0 0)))
  = fin3 (V3 0 (-1) 0).
Proof. xcompute. decide_reals. sqrt_to 1. decide_reals. xfinish. Qed.

Lemma straight_line_frames_propagated :
  propagate_frames (replicate 11 (fin3 (V3 1 0 0)))
  = Returns (replicate 11 (fin3 (V3 0 (-1) 0)),
             replicate 11 (fin3 (V3 0 0 (-1)))).
Proof.
  rewrite (replicate_S 10), propagate_frames_returns.
  unfold normals_of. rewrite quarter_turn_initial.
  rewrite (transport_constant _ _ _ straight_line_transport).
  rewrite <- !replicate_S, zip_with_replicate. do 3 f_equal.
  xcompute. xfinish.
Qed.

Lemma straight_line_MRF :
  compute_MRF (replicate 11 (fin3 (V3 1 0 0)))
  = Returns (replicate 11 (fin3 (V3 0 (-1) 0)),
             replicate 11 (fin3 (V3 0 0 (-1)))).
Proof.
  unfold compute_MRF.
  rewrite straight_line_frames_propagated, bind_Returns.
  rewrite !smooth_constant by (lia || (unfold rdot; simpl; lra)).
  done.
Qed.

Section WithSpline.
Variable CubicSpline : list xreal → list xreal → outcome (xreal → xreal).
Hypothesis contract : spline_contract CubicSpline.

(** Resampling with as many samples as points, when the uniform
    parameters are the knots, returns the points. *)
Lemma resample_at_knots (rpts : list (vec R)) :
  (2 ≤ length rpts)%nat → no_repeat rpts →
  Np.linspace01 (length rpts) = Fin <$> rdistance_normalized rpts →
  interpolate_line CubicSpline (fin3 <$> rpts) None
  = Returns (fin3 <$> rpts).
Proof.
  intros Hlen Hnr Hlin.
  destruct (interpolate_line_returns CubicSpline contract rpts None
              Hlen Hnr) as (sx & sy & sz & -> & Hx & Hy & Hz).
  change (default (length rpts) None) with (length rpts).
  rewrite Hlin. f_equal. unfold rdistance_normalized.
  rewrite <- !list_fmap_compose. apply list_eq. intros i.
  rewrite !list_lookup_fmap.
  destruct (rdistance rpts !! i) as [d|] eqn:Hd.
  - destruct (lookup_lt_is_Some_2 rpts i) as [p Hp].
    { apply lookup_lt_Some in Hd. rewrite length_rdistance in Hd. lia. }
    rewrite Hp. simpl. f_equal.
    by apply (resampled_at_knot sx sy sz rpts i d p).
  - apply lookup_ge_None in Hd. rewrite length_rdistance in Hd.
    rewrite (proj2 (lookup_ge_None rpts i)) by lia. done.
Qed.

(** C9: on the 11 evenly spaced points of the segment from (0,0,0) to
    (10,0,0), resampling, tangent estimation and frame propagation
    give tangents all equal to (1,0,0), normals all equal to
    (0,-1,0) and binormals all equal to (0,0,-1), both orthogonal to
    the tangent. *)
Theorem straight_line_frames :
  ∃ pts ts ns bs,
    interpolate_line CubicSpline (fin3 <$> straight_line) None
    = Returns pts
    ∧ compute_tangent_vectors pts = Returns ts
    ∧ compute_MRF ts = Returns (ns, bs)
    ∧ ts = replicate 11 (fin3 (V3 1 0 0))
    ∧ ns = replicate 11 (fin3 (V3 0 (-1) 0))
    ∧ bs = replicate 11 (fin3 (V3 0 0 (-1)))
    ∧ Np.dot (fin3 (V3 1 0 0)) (fin3 (V3 0 (-1) 0)) = Fin 0
    ∧ Np.dot (fin3 (V3 1 0 0)) (fin3 (V3 0 0 (-1))) = Fin 0.
Proof.
  eexists _, _, _, _.
  split.
  { apply resample_at_knots;
      [simpl; lia|apply straight_line_no_repeat
      |apply straight_line_parameters]. }
  split; [apply straight_line_tangents|].
  split; [apply straight_line_MRF|].
  do 3 (split; [done|]).
  rewrite !dot_fin3. unfold rdot. simpl. split; f_equal; lra.
Qed.
End WithSpline.

Lemma straight_line_frames_witness :
  ∃ pts ts ns bs,
    interpolate_line linear_spline (fin3 <$> straight_line) None
    = Returns pts
    ∧ compute_tangent_vectors pts = Returns ts
    ∧ compute_MRF ts = Returns (ns, bs)
    ∧ ts = replicate 11 (fin3 (V3 1 0 0))
    ∧ ns = replicate 11 (fin3 (V3 0 (-1) 0))
    ∧ bs = replicate 11 (fin3 (V3 0 0 (-1)))
    ∧ Np.dot (fin3 (V3 1 0 0)) (fin3 (V3 0 (-1) 0)) = Fin 0
    ∧ Np.dot (fin3 (V3 1 0 0)) (fin3 (V3 0 0 (-1))) = Fin 0.
Proof.
  apply (straight_line_frames linear_spline linear_spline_contract).
Defined.
End StraightLine.

(** ** The same inputs on binary64 floats

    The functions run on machine floats; the three inputs used above in
    exact arithmetic behave alike there. *)

Section Binary64.

Definition f3 (x y z : Z) : vec float :=
  V3 (float_of_Z x) (float_of_Z y) (float_of_Z z).

(** The forward window: with window 2, row 0 averages the padding and
    row 0, row 1 averages rows 0 and 1, row 2 averages rows 1 and 2. *)
Example smooth_vectors_float :
  let half : float := fdiv (of_Z 1) (of_Z 2) in
  let c := fdiv half (fsqrt (fadd (fmul half half) (fmul half half))) in
  smooth_vectors [f3 1 0 0; f3 0 1 0; f3 0 0 1] 2 1
  = Returns [f3 1 0 0; V3 c c (of_Z 0); V3 (of_Z 0) c c].
Proof. vm_compute. reflexivity. Qed.

(** Two opposite vectors, window 2: the second row is NaN. *)
Example smooth_opposite_pair_float :
  smooth_vectors [f3 1 0 0; f3 (-1) 0 0] 2 1
  = Returns [f3 1 0 0; Np.nan3].
Proof. vm_compute. reflexivity. Qed.

(** A quarter turn: the returned binormal at index 1 is far from
    orthogonal to the tangent (0,0,1). *)
Example compute_MRF_quarter_turn_float :
  match compute_MRF [f3 1 0 0; f3 0 0 1] with
  | Returns (_, [_; b]) =>
      fltb (fdiv (of_Z 1) (of_Z 2)) (PrimFloat.abs (Np.dot (f3 0 0 1) b))
  | _ => false
  end = true.
Proof. vm_compute. reflexivity. Qed.

(** Two coincident points: tangent estimation returns NaN rows. *)
Example compute_tangent_vectors_doubled_float :
  compute_tangent_vectors [f3 1 2 3; f3 1 2 3]
  = Returns [Np.nan3; Np.nan3].
Proof. vm_compute. reflexivity. Qed.

End Binary64.

(** ** The pipeline in every scalar arithmetic

    What frame propagation, tangent estimation and smoothing compute, row
    by row, for every [Scalar]: the statements below hold on binary64 as
    they hold on the reals. *)

Section Claims.
Context {F : Type} `{Scalar F}.

(** C4: frame propagation starts from the normalized vector
    (t_y, -t_x, 0) of the first tangent and computes, for each index
    i >= 1, the normal as the previous normal minus its component along
    tangent i, divided by the norm of that difference, and every binormal
    as tangent x normal; [compute_MRF] returns these two arrays smoothed.
    This holds in every scalar arithmetic and for every non-empty sequence
    of tangents, unit or not. *)
Theorem propagation_rule (tangents : list (vec F)) :
  tangents ≠ [] →
  ∃ ns bs,
    propagate_frames tangents = Returns (ns, bs)
    ∧ length ns = length tangents ∧ length bs = length tangents
    ∧ compute_MRF tangents
      = (ns' ← smooth_vectors_default ns;
         bs' ← smooth_vectors_default bs;
         Returns (ns', bs'))
    ∧ (∀ t0, tangents !! 0 = Some t0 →
         let n0 := V3 (vy t0) (fneg (vx t0)) (of_Z 0) in
         ns !! 0 = Some (Np.vdiv n0 (Np.linalg_norm n0)))
    ∧ (∀ i t, tangents !! S i = Some t →
         ∃ prev, ns !! i = Some prev ∧
           let q := Np.vsub prev (Np.vscale (Np.dot prev t) t) in
           ns !! S i = Some (Np.vdiv q (Np.linalg_norm q)))
    ∧ (∀ i t, tangents !! i = Some t →
         ∃ n, ns !! i = Some n ∧ bs !! i = Some (Np.cross t n)).
Proof.
  intros Hne. destruct tangents as [|t0 ts]; [done|].
  pose proof (propagate_frames_returns t0 ts) as Hret.
  destruct (propagate_frames_length _ _ _ Hret) as [Hln Hlb].
  eexists _, _. split; [exact Hret|]. split; [done|]. split; [done|].
  split. { unfold compute_MRF. by rewrite Hret. }
  split. { intros t [= <-]. done. }
  split.
  - intros i t Ht.
    destruct (lookup_lt_is_Some_2 (normals_of t0 ts) i) as [prev Hprev].
    { rewrite Hln. apply lookup_lt_Some in Ht. lia. }
    exists prev. split; [done|].
    by destruct (propagate_frames_step _ _ _ _ _ _ Hret Ht Hprev).
  - intros i t Ht.
    destruct (lookup_lt_is_Some_2 (normals_of t0 ts) i) as [n Hn].
    { rewrite Hln. by apply lookup_lt_Some in Ht. }
    exists n. split; [done|]. by rewrite lookup_zip_with, Ht, Hn.
Qed.

Lemma lookup_spec_pass (w : Z) (vs : list (vec F)) (i : nat) :
  i < length vs →
  spec_pass w vs !! i
  = Some (normalize
            (Np.mean (forward_window (edge_padded (Z.to_nat (w `div` 2)) vs)
                        (Z.to_nat w) i))).
Proof.
  intros Hi. unfold spec_pass.
  rewrite list_lookup_fmap, lookup_seq_lt by done. done.
Qed.

Lemma transport_normalized (prev : vec F) (ts : list (vec F)) :
  Forall (λ n, ∃ q, n = Np.vdiv q (Np.linalg_norm q)) (transport prev ts).
Proof.
  revert prev. induction ts as [|t ts IH]; intros prev; [constructor|].
  simpl. constructor; [by eexists|apply IH].
Qed.

(** C1, amended: before the final smoothing every normal is a vector
    divided by its own computed norm and every binormal is the cross
    product of its tangent and normal; the normals and binormals returned
    are these two arrays smoothed, each on its own, by one pass with
    window 10: one vector per tangent, each the mean of its window divided
    by the computed norm of that mean.  Nothing after the smoothing relates
    a returned normal to its tangent or to the returned binormal. *)
Theorem returned_frames_smoothed_separately (tangents : list (vec F)) :
  tangents ≠ [] →
  ∃ ns bs ns' bs',
    propagate_frames tangents = Returns (ns, bs)
    ∧ Forall (λ n, ∃ q, n = Np.vdiv q (Np.linalg_norm q)) ns
    ∧ bs = zip_with Np.cross tangents ns
    ∧ smooth_vectors ns 10 1 = Returns ns'
    ∧ smooth_vectors bs 10 1 = Returns bs'
    ∧ compute_MRF tangents = Returns (ns', bs')
    ∧ length ns' = length tangents ∧ length bs' = length tangents
    ∧ (∀ i, i < length tangents →
         let m := Np.mean (forward_window (edge_padded 5 ns) 10 i) in
         ns' !! i = Some (Np.vdiv m (Np.linalg_norm m)))
    ∧ (∀ i, i < length tangents →
         let m := Np.mean (forward_window (edge_padded 5 bs) 10 i) in
         bs' !! i = Some (Np.vdiv m (Np.linalg_norm m))).
Proof.
  intros Hne. destruct tangents as [|t0 ts]; [done|].
  pose proof (propagate_frames_returns t0 ts) as Hret.
  destruct (propagate_frames_length _ _ _ Hret) as [Hln Hlb].
  set (ns := normals_of t0 ts) in *.
  set (bs := zip_with Np.cross (t0 :: ts) ns) in *.
  destruct (smooth_default_returns ns) as [Hsn Hlsn].
  { intros Hnil. by rewrite Hnil in Hln. }
  destruct (smooth_default_returns bs) as [Hsb Hlsb].
  { intros Hnil. by rewrite Hnil in Hlb. }
  exists ns, bs, (spec_smooth ns 10 1), (spec_smooth bs 10 1).
  split; [exact Hret|].
  split.
  { unfold ns, normals_of. constructor; [by eexists|].
    apply transport_normalized. }
  split; [done|].
  split; [exact Hsn|]. split; [exact Hsb|].
  split.
  { unfold compute_MRF.
    by rewrite Hret, bind_Returns, Hsn, bind_Returns, Hsb. }
  split; [by rewrite Hlsn|]. split; [by rewrite Hlsb|].
  split; intros i Hi; cbv zeta.
  - change (spec_smooth ns 10 1) with (spec_pass 10 ns).
    rewrite lookup_spec_pass by (by rewrite Hln). done.
  - change (spec_smooth bs 10 1) with (spec_pass 10 bs).
    rewrite lookup_spec_pass by (by rewrite Hlb). done.
Qed.

(** C3, amended: on n >= 2 points tangent estimation has, after the
    normalization and before the smoothing, exactly n tangents; tangent
    [i] is the forward difference of points [i] and [i+1] divided by the
    computed norm of that difference, and the last tangent repeats the
    one before it.  No hypothesis on the points is needed, and nothing
    guards the division. *)
Theorem tangents_before_smoothing (pts : list (vec F)) :
  2 ≤ length pts →
  ∃ ts,
    normalized_differences pts = Returns ts
    ∧ compute_tangent_vectors pts = smooth_vectors_default ts
    ∧ length ts = length pts
    ∧ (∀ i p q, pts !! i = Some p → pts !! S i = Some q →
         let d := Np.vsub q p in
         ts !! i = Some (Np.vdiv d (Np.linalg_norm d)))
    ∧ ts !! (length pts - 1) = ts !! (length pts - 2).
Proof.
  intros Hlen.
  set (D := Np.diff pts).
  assert (HlenD : length D = length pts - 1) by apply length_diff.
  assert (is_Some (last D)) as [d Hd].
  { apply last_is_Some. intros HD. rewrite HD in HlenD. simpl in HlenD. lia. }
  pose proof (normalized_differences_returns _ _ Hd) as Hret. fold D in Hret.
  exists (normalize <$> (D ++ [d])). split; [done|]. split.
  { unfold compute_tangent_vectors. by rewrite Hret. }
  assert (Hdl : D !! (length pts - 2) = Some d).
  { rewrite last_lookup in Hd. rewrite <- Hd. f_equal. lia. }
  split; [|split].
  - rewrite length_fmap, length_app, HlenD. simpl. lia.
  - intros i p q Hp Hq d'. rewrite list_lookup_fmap.
    assert (HDi : D !! i = Some d') by (by apply lookup_diff).
    by rewrite (lookup_app_l_Some _ _ _ _ HDi).
  - rewrite !list_lookup_fmap.
    rewrite (lookup_app_l_Some _ _ _ _ Hdl).
    rewrite lookup_app_r by lia.
    replace (length pts - 1 - length D) with 0 by lia. done.
Qed.

(** C6, amended: whenever numpy's padding is not refused (a window size
    of at least 0, and a non-empty sequence or a window below 2),
    smoothing returns after every number of passes a sequence of the
    length of its input; before the first pass it is the input, and each
    pass makes every vector the mean of its window divided by the
    computed norm of that mean. *)
Theorem smooth_vectors_rows_normalized (vs : list (vec F)) (w : Z)
    (p : nat) :
  (0 ≤ w)%Z → vs ≠ [] ∨ (w < 2)%Z →
  ∃ prev out,
    smooth_vectors vs w p = Returns prev
    ∧ smooth_vectors vs w (S p) = Returns out
    ∧ (p = 0 → prev = vs)
    ∧ length prev = length vs ∧ length out = length vs
    ∧ ∀ i, i < length vs →
        let m := Np.mean (forward_window
                            (edge_padded (Z.to_nat (w `div` 2)) prev)
                            (Z.to_nat w) i) in
        out !! i = Some (Np.vdiv m (Np.linalg_norm m)).
Proof.
  intros Hw Hvs.
  exists (spec_smooth vs w p), (spec_smooth vs w (S p)).
  split.
  { destruct p as [|p]; [done|]. by apply smooth_passes_returns. }
  split; [by apply smooth_passes_returns|].
  split; [by intros ->|].
  split; [apply length_spec_smooth|].
  split; [apply length_spec_smooth|].
  intros i Hi. cbv zeta.
  change (spec_smooth vs w (S p)) with (spec_pass w (spec_smooth vs w p)).
  rewrite lookup_spec_pass by (by rewrite length_spec_smooth). done.
Qed.
End Claims.

(** ** The spline library, in every arithmetic

    [scipy.interpolate.CubicSpline] is not part of the repository.  Its
    constructor validates its input and raises ValueError unless [x] holds
    at least two finite values in strictly increasing order and [y] as
    many finite values; this validation is all that is assumed of it
    here. *)

(** [np.isfinite]. *)
Class Finiteness (F : Type) : Type := isfinite : F → bool.

#[global] Instance float_finiteness : Finiteness float :=
  PrimFloat.is_finite.

Section SplineInput.
Context {F : Type} `{Scalar F} `{Finiteness F}.

Fixpoint increasing (x : list F) : bool :=
  match x with
  | a :: x' =>
      match x' with
      | b :: _ => fltb a b && increasing x'
      | [] => true
      end
  | [] => true
  end.

(** What the constructor accepts. *)
Definition prepare_input (x y : list F) : bool :=
  bool_decide (2 ≤ length x) && bool_decide (length x = length y)
  && forallb isfinite x && forallb isfinite y && increasing x.

Record validating (CS : list F → list F → outcome (F → F)) : Prop := {
  accepts : ∀ x y, prepare_input x y = true → ∃ s, CS x y = Returns s;
  refuses : ∀ x y, prepare_input x y = false → CS x y = Raises ValueError
}.

(** Lines 31-33 of the script: the cumulative chord lengths divided by
    the last of them. *)
Definition distance_normalized (points : list (vec F)) : list F :=
  let distance :=
    Np.cumsum (of_Z 0 :: (Np.linalg_norm <$> Np.diff points)) in
  (λ d, fdiv d (default (of_Z 0) (last distance))) <$> distance.

(** The three constructor calls of lines 36-38 all pass the validation. *)
Definition accepted (points : list (vec F)) : bool :=
  prepare_input (distance_normalized points) (vx <$> points)
  && prepare_input (distance_normalized points) (vy <$> points)
  && prepare_input (distance_normalized points) (vz <$> points).

(** A spline reproduces the first and the last of its data. *)
Definition through_ends (s : F → F) (x y : list F) : Prop :=
  (∀ a b, head x = Some a → head y = Some b → s a = b)
  ∧ (∀ a b, last x = Some a → last y = Some b → s a = b).

(** An interpolant behind the library's validation, for the examples:
    exact at the knots, the chord between two knots. *)
Fixpoint chord_at (x y : list F) (u : F) : F :=
  match x, y with
  | a :: x', c :: y' =>
      if negb (fltb a u) && negb (fltb u a) then c
      else match x', y' with
           | b :: _, d :: _ =>
               if fltb u b
               then fadd c (fmul (fsub u a) (fdiv (fsub d c) (fsub b a)))
               else chord_at x' y' u
           | _, _ => c
           end
  | _, _ => nan
  end.

Definition checked_spline (x y : list F) : outcome (F → F) :=
  if prepare_input x y then Returns (chord_at x y) else Raises ValueError.

Lemma checked_spline_validating : validating checked_spline.
Proof.
  split; intros x y Hxy; unfold checked_spline; rewrite Hxy; [|done].
  by eexists.
Qed.

Lemma length_cumsum_from (acc : F) (l : list F) :
  length (Np.cumsum_from acc l) = length l.
Proof. revert acc. induction l as [|a l IH]; intros acc; simpl; auto. Qed.

Lemma length_distance_normalized (points : list (vec F)) :
  length (distance_normalized points) = S (length points - 1).
Proof.
  unfold distance_normalized. cbv zeta. rewrite length_fmap. simpl.
  by rewrite length_cumsum_from, length_fmap, length_diff.
Qed.

Lemma lookup_cumsum_from (acc : F) (l : list F) i d z :
  (acc :: Np.cumsum_from acc l) !! i = Some d → l !! i = Some z →
  (acc :: Np.cumsum_from acc l) !! S i = Some (fadd d z).
Proof.
  revert acc i. induction l as [|a l IH]; intros acc i Hd Hz; [done|].
  destruct i as [|i]; simpl in *.
  - by simplify_eq.
  - by apply IH.
Qed.

(** Two consecutive parameters: the second is the first chord sum plus
    the chord, both divided by the total. *)
Lemma distance_normalized_step (points : list (vec F)) i p q :
  points !! i = Some p → points !! S i = Some q →
  ∃ d L,
    distance_normalized points !! i = Some (fdiv d L)
    ∧ distance_normalized points !! S i
      = Some (fdiv (fadd d (Np.linalg_norm (Np.vsub q p))) L).
Proof.
  intros Hp Hq. unfold distance_normalized. cbv zeta.
  set (norms := Np.linalg_norm <$> Np.diff points).
  change (Np.cumsum (of_Z 0 :: norms))
    with (of_Z 0 :: Np.cumsum_from (of_Z 0) norms).
  set (L := default (of_Z 0) (last _)).
  assert (Hz : norms !! i = Some (Np.linalg_norm (Np.vsub q p))).
  { unfold norms. by rewrite list_lookup_fmap, (lookup_diff _ _ _ _ Hp Hq). }
  destruct (lookup_lt_is_Some_2 (of_Z 0 :: Np.cumsum_from (of_Z 0) norms) i)
    as [d Hd].
  { simpl. rewrite length_cumsum_from. apply lookup_lt_Some in Hz. lia. }
  exists d, L. rewrite !list_lookup_fmap, Hd.
  by rewrite (lookup_cumsum_from _ _ _ _ _ Hd Hz).
Qed.

Lemma increasing_false (x : list F) i a b :
  x !! i = Some a → x !! S i = Some b → fltb a b = false →
  increasing x = false.
Proof.
  revert i. induction x as [|a' [|b' x] IH]; intros i Ha Hb Hab; [done| |].
  - by destruct i.
  - change (increasing (a' :: b' :: x))
      with (fltb a' b' && increasing (b' :: x)).
    destruct i as [|i].
    + simpl in Ha, Hb. simplify_eq. by rewrite Hab.
    + rewrite (IH i Ha Hb Hab). apply andb_false_r.
Qed.

Lemma prepare_input_short (x y : list F) :
  length x < 2 → prepare_input x y = false.
Proof.
  intros Hx. unfold prepare_input.
  by rewrite bool_decide_eq_false_2 by lia.
Qed.

Lemma prepare_input_not_increasing (x y : list F) :
  increasing x = false → prepare_input x y = false.
Proof. intros Hx. unfold prepare_input. rewrite Hx. apply andb_false_r. Qed.

Section WithSpline.
Variable CubicSpline : list F → list F → outcome (F → F).
Hypothesis contract : validating CubicSpline.

Lemma head_fmap {A B} (f : A → B) (l : list A) :
  head (f <$> l) = f <$> head l.
Proof. by destruct l. Qed.

Lemma interpolate_line_refused (points : list (vec F)) num :
  accepted points = false →
  interpolate_line CubicSpline points num = Raises ValueError.
Proof.
  intros Hacc. unfold accepted in Hacc.
  unfold interpolate_line. cbv zeta. fold (distance_normalized points).
  destruct (prepare_input _ (vx <$> points)) eqn:Hx.
  2:{ by rewrite (refuses _ contract _ _ Hx). }
  destruct (accepts _ contract _ _ Hx) as [sx ->]. rewrite bind_Returns.
  destruct (prepare_input _ (vy <$> points)) eqn:Hy.
  2:{ by rewrite (refuses _ contract _ _ Hy). }
  destruct (accepts _ contract _ _ Hy) as [sy ->]. rewrite bind_Returns.
  destruct (prepare_input _ (vz <$> points)) eqn:Hz; [done|].
  by rewrite (refuses _ contract _ _ Hz).
Qed.

Lemma interpolate_line_accepted (points : list (vec F)) num :
  accepted points = true →
  ∃ sx sy sz,
    CubicSpline (distance_normalized points) (vx <$> points) = Returns sx
    ∧ CubicSpline (distance_normalized points) (vy <$> points) = Returns sy
    ∧ CubicSpline (distance_normalized points) (vz <$> points) = Returns sz
    ∧ interpolate_line CubicSpline points num
      = Returns ((λ u, V3 (sx u) (sy u) (sz u))
                   <$> Np.linspace01 (default (length points) num)).
Proof.
  intros Hacc. unfold accepted in Hacc.
  apply andb_true_iff in Hacc as [Hacc Hz].
  apply andb_true_iff in Hacc as [Hx Hy].
  destruct (accepts _ contract _ _ Hx) as [sx Hsx].
  destruct (accepts _ contract _ _ Hy) as [sy Hsy].
  destruct (accepts _ contract _ _ Hz) as [sz Hsz].
  exists sx, sy, sz. do 3 (split; [done|]).
  unfold interpolate_line. cbv zeta. fold (distance_normalized points).
  by rewrite Hsx, bind_Returns, Hsy, bind_Returns, Hsz, bind_Returns.
Qed.

Lemma length_linspace (num : nat) :
  length (Np.linspace01 num : list F) = num.
Proof.
  destruct num as [|[|k]]; [done|done|].
  unfold Np.linspace01. rewrite length_app, length_fmap, length_seq.
  simpl. lia.
Qed.

Lemma accepted_length (points : list (vec F)) :
  accepted points = true → 2 ≤ length points.
Proof.
  unfold accepted, prepare_input. intros Hacc.
  repeat (apply andb_true_iff in Hacc as [Hacc _]).
  apply bool_decide_eq_true in Hacc.
  rewrite length_distance_normalized in Hacc. lia.
Qed.

(** The outcome of [interpolate_line] in every arithmetic. *)
Lemma interpolate_line_outcome (points : list (vec F)) (N : nat) :
  (accepted points = false →
   interpolate_line CubicSpline points (Some N) = Raises ValueError)
  ∧ (accepted points = true →
     ∃ sx sy sz out,
       CubicSpline (distance_normalized points) (vx <$> points) = Returns sx
       ∧ CubicSpline (distance_normalized points) (vy <$> points)
         = Returns sy
       ∧ CubicSpline (distance_normalized points) (vz <$> points)
         = Returns sz
       ∧ interpolate_line CubicSpline points (Some N) = Returns out
       ∧ out = (λ u, V3 (sx u) (sy u) (sz u)) <$> Np.linspace01 N
       ∧ length out = N
       ∧ (2 ≤ N → last out = Some (V3 (sx (of_Z 1)) (sy (of_Z 1))
                                     (sz (of_Z 1))))
       ∧ (∀ p q, 2 ≤ N → head points = Some p → last points = Some q →
            head (distance_normalized points) = head (Np.linspace01 N) →
            last (distance_normalized points) = Some (of_Z 1) →
            through_ends sx (distance_normalized points) (vx <$> points) →
            through_ends sy (distance_normalized points) (vy <$> points) →
            through_ends sz (distance_normalized points) (vz <$> points) →
            head out = Some p ∧ last out = Some q)).
Proof.
  split; [apply interpolate_line_refused|].
  intros Hacc.
  destruct (interpolate_line_accepted points (Some N) Hacc)
    as (sx & sy & sz & Hsx & Hsy & Hsz & Hret).
  exists sx, sy, sz, ((λ u, V3 (sx u) (sy u) (sz u)) <$> Np.linspace01 N).
  do 3 (split; [done|]).
  split; [exact Hret|]. split; [done|].
  split; [by rewrite length_fmap, length_linspace|].
  assert (Hlast : 2 ≤ N →
    last ((λ u, V3 (sx u) (sy u) (sz u)) <$> Np.linspace01 N)
    = Some (V3 (sx (of_Z 1)) (sy (of_Z 1)) (sz (of_Z 1)))).
  { intros HN. destruct N as [|[|k]]; [lia|lia|].
    rewrite fmap_last. unfold Np.linspace01. by rewrite last_snoc. }
  split; [done|].
  intros p q HN Hp Hq Hfirst Hend [Hx0 Hx1] [Hy0 Hy1] [Hz0 Hz1].
  split.
  - rewrite head_fmap, <- Hfirst.
    destruct (head (distance_normalized points)) as [k0|] eqn:Hk0.
    2:{ apply head_None in Hk0. apply (f_equal length) in Hk0.
        by rewrite length_distance_normalized in Hk0. }
    assert (Hh : ∀ c : vec F → F, head (c <$> points) = Some (c p))
      by (intros c; by rewrite head_fmap, Hp).
    cbn [fmap option_fmap option_map].
    rewrite (Hx0 k0 _ eq_refl (Hh vx)), (Hy0 k0 _ eq_refl (Hh vy)),
      (Hz0 k0 _ eq_refl (Hh vz)).
    by destruct p.
  - rewrite (Hlast HN).
    assert (Hl : ∀ c : vec F → F, last (c <$> points) = Some (c q))
      by (intros c; by rewrite fmap_last, Hq).
    rewrite (Hx1 _ _ Hend (Hl vx)), (Hy1 _ _ Hend (Hl vy)),
      (Hz1 _ _ Hend (Hl vz)).
    by destruct q.
Qed.
End WithSpline.
End SplineInput.

(** ** binary64: what the specification of the primitive operations gives *)

Abbreviation B2SF := FloatOps.Prim2SF.

Section Binary64Facts.
Import SpecFloat.

Lemma float_ltb_irrefl (x : float) : PrimFloat.ltb x x = false.
Proof.
  rewrite FloatAxioms.ltb_spec.
  unfold SFltb, SFcompare.
  destruct (B2SF x) as [s|s| |s m e]; try destruct s;
    try reflexivity;
    by rewrite Z.compare_refl, Pos.compare_cont_refl.
Qed.

Lemma float_ltb_nan_r (x y : float) :
  B2SF y = S754_nan → PrimFloat.ltb x y = false.
Proof.
  intros Hy. rewrite FloatAxioms.ltb_spec, Hy. unfold SFltb, SFcompare.
  by destruct (B2SF x).
Qed.

(** A float that is +0 or NaN: what [x - x] is, for every [x]. *)
Definition zero_or_nan (x : float) : Prop :=
  B2SF x = S754_zero false ∨ B2SF x = S754_nan.

Lemma sub_self (x : float) : zero_or_nan (PrimFloat.sub x x).
Proof.
  unfold zero_or_nan. rewrite FloatAxioms.sub_spec.
  unfold FloatAxioms.SF64sub, SFsub.
  destruct (B2SF x) as [[|]|[|]| |s m e]; auto.
  rewrite Z.sub_diag. by left.
Qed.

Lemma mul_zero_or_nan (x y : float) :
  zero_or_nan x → zero_or_nan y → zero_or_nan (PrimFloat.mul x y).
Proof.
  unfold zero_or_nan. rewrite FloatAxioms.mul_spec.
  unfold FloatAxioms.SF64mul, SFmul.
  intros [Hx|Hx] [Hy|Hy]; rewrite Hx, ?Hy; auto.
Qed.

Lemma add_zero_or_nan (x y : float) :
  zero_or_nan x → zero_or_nan y → zero_or_nan (PrimFloat.add x y).
Proof.
  unfold zero_or_nan. rewrite FloatAxioms.add_spec.
  unfold FloatAxioms.SF64add, SFadd.
  intros [Hx|Hx] [Hy|Hy]; rewrite Hx, ?Hy; auto.
Qed.

Lemma sqrt_zero_or_nan (x : float) :
  zero_or_nan x → zero_or_nan (PrimFloat.sqrt x).
Proof.
  unfold zero_or_nan. rewrite FloatAxioms.sqrt_spec.
  unfold FloatAxioms.SF64sqrt, SFsqrt.
  intros [Hx|Hx]; rewrite Hx; auto.
Qed.

(** The chord between a point and itself has length +0, or NaN when a
    coordinate is not finite. *)
Lemma norm_same_point (p : vec float) :
  zero_or_nan (Np.linalg_norm (Np.vsub p p)).
Proof.
  apply sqrt_zero_or_nan.
  repeat first [apply add_zero_or_nan | apply mul_zero_or_nan];
    apply sub_self.
Qed.

(** Adding such a chord never moves the parameter forward. *)
Lemma no_advance (d L z : float) :
  zero_or_nan z →
  PrimFloat.ltb (PrimFloat.div d L) (PrimFloat.div (PrimFloat.add d z) L)
  = false.
Proof.
  intros [Hz|Hz].
  - destruct (B2SF d) as [sd|sd| |sd md ed] eqn:Hd.
    + assert (PrimFloat.add d z = d \/ sd = true) as [-> | ->].
      { destruct sd; [by right|left].
        apply FloatAxioms.Prim2SF_inj.
        by rewrite FloatAxioms.add_spec, Hd, Hz. }
      * apply float_ltb_irrefl.
      * rewrite FloatAxioms.ltb_spec, !FloatAxioms.div_spec.
        rewrite FloatAxioms.add_spec, Hd, Hz.
        unfold FloatAxioms.SF64div, SFdiv, FloatAxioms.SF64add, SFadd.
        by destruct (B2SF L) as [[|]|[|]| |[|] m e].
    + assert (PrimFloat.add d z = d) as ->; [|apply float_ltb_irrefl].
      apply FloatAxioms.Prim2SF_inj.
      by rewrite FloatAxioms.add_spec, Hd, Hz.
    + apply float_ltb_nan_r.
      by rewrite FloatAxioms.div_spec, FloatAxioms.add_spec, Hd.
    + assert (PrimFloat.add d z = d) as ->; [|apply float_ltb_irrefl].
      apply FloatAxioms.Prim2SF_inj.
      by rewrite FloatAxioms.add_spec, Hd, Hz.
  - apply float_ltb_nan_r.
    rewrite FloatAxioms.div_spec, FloatAxioms.add_spec, Hz.
    unfold FloatAxioms.SF64add, SFadd. by destruct (B2SF d).
Qed.
End Binary64Facts.

(** ** Degenerate requests on binary64 *)

Section DegenerateRequests.
Variable CubicSpline : list float → list float → outcome (float → float).
Hypothesis contract : validating CubicSpline.

Lemma too_few_points_refused (points : list (vec float)) :
  length points < 2 → accepted points = false.
Proof.
  intros Hlen. unfold accepted.
  rewrite (prepare_input_short _ (vx <$> points)); [done|].
  rewrite length_distance_normalized. lia.
Qed.

Lemma repeated_point_refused (points : list (vec float)) i p :
  points !! i = Some p → points !! S i = Some p → accepted points = false.
Proof.
  intros Hp Hq. unfold accepted.
  rewrite (prepare_input_not_increasing _ (vx <$> points)); [done|].
  destruct (distance_normalized_step points i p p Hp Hq)
    as (d & L & Hd & Hd').
  apply (increasing_false _ i _ _ Hd Hd').
  apply no_advance, norm_same_point.
Qed.

Lemma linspace01_one_float :
  (Np.linspace01 1 : list float) = [of_Z 0].
Proof. vm_compute. reflexivity. Qed.

(** C7, amended: the script has no check of its own and no error type.
    On binary64, for every input: fewer than 2 points, or two coincident
    consecutive points, make the spline constructor's validation raise
    ValueError; a request for 1 point on an input the constructor
    accepts is served, with exactly one point, the splines' values at
    parameter 0. *)
Theorem degenerate_requests :
  (∀ points num, length points < 2 →
     interpolate_line CubicSpline points num = Raises ValueError)
  ∧ (∀ points num i p,
       points !! i = Some p → points !! S i = Some p →
       interpolate_line CubicSpline points num = Raises ValueError)
  ∧ (∀ points, accepted points = true →
       ∃ sx sy sz,
         CubicSpline (distance_normalized points) (vx <$> points)
         = Returns sx
         ∧ CubicSpline (distance_normalized points) (vy <$> points)
           = Returns sy
         ∧ CubicSpline (distance_normalized points) (vz <$> points)
           = Returns sz
         ∧ interpolate_line CubicSpline points (Some 1)
           = Returns [V3 (sx (of_Z 0)) (sy (of_Z 0)) (sz (of_Z 0))]).
Proof.
  split; [|split].
  - intros points num Hlen.
    by apply interpolate_line_refused, too_few_points_refused.
  - intros points num i p Hp Hq.
    apply interpolate_line_refused; [done|].
    by apply (repeated_point_refused points i p).
  - intros points Hacc.
    destruct (interpolate_line_accepted CubicSpline contract points
                (Some 1) Hacc) as (sx & sy & sz & Hsx & Hsy & Hsz & Hret).
    exists sx, sy, sz. do 3 (split; [done|]).
    rewrite Hret.
    change (default (length points) (Some 1)) with 1.
    by rewrite linspace01_one_float.
Qed.
End DegenerateRequests.

(** ** binary64 inputs *)

Section Binary64Inputs.

Definition bent_linef : list (vec float) := [f3 0 0 0; f3 3 4 0; f3 3 4 2].

(** The third point is 1e-17 away from the second. *)
Definition absorbed_chord : list (vec float) :=
  [f3 0 0 0; f3 1 0 0;
   V3 (of_Z 1) (fdiv (of_Z 1) (of_Z (10 ^ 17))) (of_Z 0); f3 2 0 0].

(** Two points 2^-682 apart. *)
Definition close_pair : list (vec float) :=
  [f3 0 0 0; V3 (FloatOps.Z.ldexp PrimFloat.one (-682)) (of_Z 0) (of_Z 0)].

Ltac float_differ test :=
  let E := fresh "E" in
  intros E; apply (f_equal (test : vec float → bool)) in E;
  vm_compute in E; discriminate E.

(** C2, as stated, fails on binary64: no two consecutive points of this
    polyline coincide, yet the chord of length 1e-17 is absorbed by the
    cumulative sum, two parameters are equal and the constructor raises
    ValueError. *)
Lemma absorbed_chord_rejected :
  (∀ i p q, absorbed_chord !! i = Some p → absorbed_chord !! S i = Some q →
     p ≠ q)
  ∧ validating (checked_spline (F := float))
  ∧ distance_normalized absorbed_chord !! 1 = distance_normalized absorbed_chord !! 2
  ∧ interpolate_line checked_spline absorbed_chord (Some 4)
    = Raises ValueError.
Proof.
  split; [|split; [apply checked_spline_validating|split]].
  - intros [|[|[|i]]] p q Hp Hq; simplify_eq/=.
    + float_differ (λ v : vec float, PrimFloat.ltb (vx v) (of_Z 1)).
    + float_differ (λ v : vec float, PrimFloat.ltb (of_Z 0) (vy v)).
    + float_differ (λ v : vec float, PrimFloat.ltb (vx v) (of_Z 2)).
  - vm_compute. reflexivity.
  - vm_compute. reflexivity.
Qed.

(** C3, as stated, fails on binary64: the two points are distinct, the
    squared length of their difference underflows to 0, and the tangent
    is (inf, NaN, NaN), whose norm is not within 1e-6 of 1. *)
Lemma underflowing_difference_not_unit :
  (∀ i p q, close_pair !! i = Some p → close_pair !! S i = Some q → p ≠ q)
  ∧ normalized_differences close_pair
    = Returns [V3 PrimFloat.infinity PrimFloat.nan PrimFloat.nan;
               V3 PrimFloat.infinity PrimFloat.nan PrimFloat.nan]
  ∧ PrimFloat.ltb
      (PrimFloat.abs
         (PrimFloat.sub
            (Np.linalg_norm
               (V3 PrimFloat.infinity PrimFloat.nan PrimFloat.nan))
            (of_Z 1)))
      eps
    = false.
Proof.
  split; [|split].
  - intros [|[|i]] p q Hp Hq; simplify_eq/=.
    float_differ (λ v : vec float, PrimFloat.ltb (of_Z 0) (vx v)).
  - vm_compute. reflexivity.
  - vm_compute. reflexivity.
Qed.
End Binary64Inputs.

Section Binary64Witnesses.

Lemma propagation_rule_witness :
  ∃ ns bs,
    propagate_frames [f3 1 0 0; f3 0 0 1] = Returns (ns, bs)
    ∧ length ns = length [f3 1 0 0; f3 0 0 1]
    ∧ length bs = length [f3 1 0 0; f3 0 0 1]
    ∧ compute_MRF [f3 1 0 0; f3 0 0 1]
      = (ns' ← smooth_vectors_default ns;
         bs' ← smooth_vectors_default bs;
         Returns (ns', bs'))
    ∧ (∀ t0, [f3 1 0 0; f3 0 0 1] !! 0 = Some t0 →
         let n0 := V3 (vy t0) (fneg (vx t0)) (of_Z 0) in
         ns !! 0 = Some (Np.vdiv n0 (Np.linalg_norm n0)))
    ∧ (∀ i t, [f3 1 0 0; f3 0 0 1] !! S i = Some t →
         ∃ prev, ns !! i = Some prev ∧
           let q := Np.vsub prev (Np.vscale (Np.dot prev t) t) in
           ns !! S i = Some (Np.vdiv q (Np.linalg_norm q)))
    ∧ (∀ i t, [f3 1 0 0; f3 0 0 1] !! i = Some t →
         ∃ n, ns !! i = Some n ∧ bs !! i = Some (Np.cross t n)).
Proof. apply (propagation_rule [f3 1 0 0; f3 0 0 1]). done. Defined.

Lemma returned_frames_smoothed_separately_witness :
  ∃ ns bs ns' bs',
    propagate_frames [f3 1 0 0; f3 0 0 1] = Returns (ns, bs)
    ∧ Forall (λ n, ∃ q, n = Np.vdiv q (Np.linalg_norm q)) ns
    ∧ bs = zip_with Np.cross [f3 1 0 0; f3 0 0 1] ns
    ∧ smooth_vectors ns 10 1 = Returns ns'
    ∧ smooth_vectors bs 10 1 = Returns bs'
    ∧ compute_MRF [f3 1 0 0; f3 0 0 1] = Returns (ns', bs')
    ∧ length ns' = length [f3 1 0 0; f3 0 0 1]
    ∧ length bs' = length [f3 1 0 0; f3 0 0 1]
    ∧ (∀ i, i < length [f3 1 0 0; f3 0 0 1] →
         let m := Np.mean (forward_window (edge_padded 5 ns) 10 i) in
         ns' !! i = Some (Np.vdiv m (Np.linalg_norm m)))
    ∧ (∀ i, i < length [f3 1 0 0; f3 0 0 1] →
         let m := Np.mean (forward_window (edge_padded 5 bs) 10 i) in
         bs' !! i = Some (Np.vdiv m (Np.linalg_norm m))).
Proof.
  apply (returned_frames_smoothed_separately [f3 1 0 0; f3 0 0 1]). done.
Defined.

Lemma tangents_before_smoothing_witness :
  ∃ ts,
    normalized_differences bent_linef = Returns ts
    ∧ compute_tangent_vectors bent_linef = smooth_vectors_default ts
    ∧ length ts = length bent_linef
    ∧ (∀ i p q, bent_linef !! i = Some p → bent_linef !! S i = Some q →
         let d := Np.vsub q p in
         ts !! i = Some (Np.vdiv d (Np.linalg_norm d)))
    ∧ ts !! (length bent_linef - 1) = ts !! (length bent_linef - 2).
Proof. apply (tangents_before_smoothing bent_linef). simpl. lia. Defined.

Lemma smooth_vectors_rows_normalized_witness :
  ∃ prev out,
    smooth_vectors [f3 1 0 0; f3 (-1) 0 0] 2 0 = Returns prev
    ∧ smooth_vectors [f3 1 0 0; f3 (-1) 0 0] 2 1 = Returns out
    ∧ (0 = 0 → prev = [f3 1 0 0; f3 (-1) 0 0])
    ∧ length prev = length [f3 1 0 0; f3 (-1) 0 0]
    ∧ length out = length [f3 1 0 0; f3 (-1) 0 0]
    ∧ ∀ i, i < length [f3 1 0 0; f3 (-1) 0 0] →
        let m := Np.mean (forward_window
                            (edge_padded (Z.to_nat (2 `div` 2)) prev)
                            (Z.to_nat 2) i) in
        out !! i = Some (Np.vdiv m (Np.linalg_norm m)).
Proof.
  apply (smooth_vectors_rows_normalized [f3 1 0 0; f3 (-1) 0 0] 2 0);
    [lia|by left].
Defined.

Lemma degenerate_requests_witness :
  interpolate_line checked_spline [f3 1 2 3] None = Raises ValueError
  ∧ interpolate_line checked_spline
      [f3 0 0 0; f3 1 1 1; f3 1 1 1; f3 2 0 0] (Some 5)
    = Raises ValueError
  ∧ interpolate_line checked_spline bent_linef (Some 1)
    = Returns [f3 0 0 0].
Proof.
  destruct (degenerate_requests checked_spline checked_spline_validating)
    as (Hfew & Hrepeated & Hone).
  split; [apply Hfew; simpl; lia|].
  split; [by apply (Hrepeated _ _ 1 (f3 1 1 1))|].
  assert (Hok : accepted bent_linef = true) by (vm_compute; reflexivity).
  destruct (Hone bent_linef Hok) as (sx & sy & sz & Hsx & Hsy & Hsz & ->).
  vm_compute in Hsx, Hsy, Hsz.
  injection Hsx as <-. injection Hsy as <-. injection Hsz as <-.
  vm_compute. reflexivity.
Defined.
End Binary64Witnesses.

(** ** binary64: the parameters of an accepted polyline

    Norms and their running sums carry no sign bit, and a finite float
    above zero divided by itself is exactly 1: on a polyline the
    spline constructor accepts, the parameters start at 0 and end at 1. *)

Section Binary64Ends.
Import SpecFloat.

(** The sign bit is clear, or the float is NaN. *)
Definition SFnonneg (x : spec_float) : Prop :=
  match x with
  | S754_zero s | S754_infinity s | S754_finite s _ _ => s = false
  | S754_nan => True
  end.

Definition nonneg_or_nan (x : float) : Prop := SFnonneg (B2SF x).

Lemma round_aux_nonneg m e l :
  SFnonneg (binary_round_aux FloatOps.prec FloatOps.emax false m e l).
Proof.
  unfold binary_round_aux.
  destruct (shr_fexp _ _ m e l) as [mrs e'].
  destruct (shr_fexp _ _ _ e' loc_Exact) as [mrs' e''].
  destruct (shr_m mrs'); [done| |done].
  by destruct (Z.leb _ _).
Qed.

Lemma round_nonneg m e :
  SFnonneg (binary_round FloatOps.prec FloatOps.emax false m e).
Proof.
  unfold binary_round. destruct (shl_align _ _ _). apply round_aux_nonneg.
Qed.

Lemma mul_self_nonneg (x : float) : nonneg_or_nan (PrimFloat.mul x x).
Proof.
  unfold nonneg_or_nan. rewrite FloatAxioms.mul_spec.
  unfold FloatAxioms.SF64mul, SFmul.
  destruct (B2SF x) as [[|]|[|]| |[|] m e]; try done;
    apply round_aux_nonneg.
Qed.

Lemma add_nonneg (x y : float) :
  nonneg_or_nan x → nonneg_or_nan y → nonneg_or_nan (PrimFloat.add x y).
Proof.
  unfold nonneg_or_nan. rewrite FloatAxioms.add_spec.
  unfold FloatAxioms.SF64add, SFadd.
  destruct (B2SF x) as [sx|sx| |sx mx ex], (B2SF y) as [sy|sy| |sy my ey];
    simpl; intros; subst; try done.
  apply round_nonneg.
Qed.

Lemma sqrt_nonneg (x : float) :
  nonneg_or_nan x → nonneg_or_nan (PrimFloat.sqrt x).
Proof.
  unfold nonneg_or_nan. rewrite FloatAxioms.sqrt_spec.
  unfold FloatAxioms.SF64sqrt, SFsqrt.
  destruct (B2SF x) as [s|s| |s m e]; simpl; intros; subst; try done.
  destruct (SFsqrt_core_binary _ _ _ _) as [[mz ez] lz].
  apply round_aux_nonneg.
Qed.

Lemma norm_nonneg (v : vec float) : nonneg_or_nan (Np.linalg_norm v).
Proof.
  apply sqrt_nonneg. repeat apply add_nonneg; apply mul_self_nonneg.
Qed.

Lemma cumsum_from_nonneg (acc : float) (l : list float) :
  nonneg_or_nan acc → Forall nonneg_or_nan l →
  Forall nonneg_or_nan (Np.cumsum_from acc l).
Proof.
  intros Hacc Hl. revert acc Hacc.
  induction Hl as [|x l Hx Hl IH]; intros acc Hacc; simpl; [done|].
  constructor; [by apply add_nonneg|]. apply IH. by apply add_nonneg.
Qed.

(** The total length of the polyline, [distance[-1]]. *)
Definition total_length (points : list (vec float)) : float :=
  default (of_Z 0)
    (last (Np.cumsum (of_Z 0 :: (Np.linalg_norm <$> Np.diff points)))).

Lemma total_length_nonneg (points : list (vec float)) :
  nonneg_or_nan (total_length points).
Proof.
  unfold total_length.
  change (Np.cumsum (of_Z 0 :: ?l)) with (of_Z 0 :: Np.cumsum_from (of_Z 0) l).
  assert (Hz : nonneg_or_nan (of_Z 0)) by (vm_compute; reflexivity).
  assert (Hall : Forall nonneg_or_nan
    (of_Z 0 :: Np.cumsum_from (of_Z 0) (Np.linalg_norm <$> Np.diff points))).
  { constructor; [done|]. apply cumsum_from_nonneg; [done|].
    apply Forall_fmap, Forall_forall. intros v _. apply norm_nonneg. }
  destruct (last _) as [L|] eqn:HL; [|done].
  apply last_Some_elem_of in HL.
  by apply (proj1 (Forall_forall _ _) Hall).
Qed.

Lemma is_finite_not_nan (x : float) :
  PrimFloat.is_finite x = true → B2SF x ≠ S754_nan.
Proof.
  unfold PrimFloat.is_finite, PrimFloat.is_nan. intros Hfin Hx.
  rewrite FloatAxioms.eqb_spec, Hx in Hfin. done.
Qed.

(** A finite float above zero divided by itself is exactly 1. *)
Lemma div_self (x : float) m e :
  B2SF x = S754_finite false m e → PrimFloat.div x x = PrimFloat.one.
Proof.
  intros Hx. apply FloatAxioms.Prim2SF_inj.
  rewrite FloatAxioms.div_spec, Hx.
  unfold FloatAxioms.SF64div, SFdiv, SFdiv_core_binary.
  rewrite !Z.sub_diag.
  change (Z.min (fexp FloatOps.prec FloatOps.emax 0) 0) with (-53)%Z.
  change (0 - -53)%Z with 53%Z. cbv iota.
  assert (Hq : Z.div_eucl (Z.shiftl (Z.pos m) 53) (Z.pos m)
               = (2 ^ 53, 0)%Z).
  { rewrite Z.shiftl_mul_pow2 by lia.
    pose proof (Z.div_mul (2 ^ 53) (Z.pos m) ltac:(lia)) as Hd.
    pose proof (Z.mod_mul (2 ^ 53) (Z.pos m) ltac:(lia)) as Hm.
    rewrite (Z.mul_comm (2 ^ 53)) in Hd, Hm.
    rewrite (Z.mul_comm (Z.pos m)).
    unfold Z.div, Z.modulo in Hd, Hm.
    rewrite (Z.mul_comm (2 ^ 53)).
    destruct (Z.div_eucl _ _) as [q r]. simpl in Hd, Hm. by subst. }
  rewrite Hq.
  assert (Hl : new_location (Z.pos m) 0 = loc_Exact).
  { unfold new_location. by destruct (Z.even _). }
  rewrite Hl. vm_compute. reflexivity.
Qed.

(** On an input the constructor accepts, the parameters run from
    exactly 0 to exactly 1. *)
Lemma accepted_ends (points : list (vec float)) :
  accepted points = true →
  head (distance_normalized points) = Some (of_Z 0)
  ∧ last (distance_normalized points) = Some (of_Z 1).
Proof.
  intros Hacc. unfold accepted in Hacc.
  do 2 (apply andb_true_iff in Hacc as [Hacc _]).
  unfold prepare_input in Hacc.
  do 2 (apply andb_true_iff in Hacc as [Hacc _]).
  apply andb_true_iff in Hacc as [_ Hfin].
  rewrite forallb_forall in Hfin.
  unfold distance_normalized in *. cbv zeta in *.
  fold (total_length points) in *.
  pose proof (total_length_nonneg points) as Hnn.
  change (Np.cumsum (of_Z 0 :: ?l))
    with (of_Z 0 :: Np.cumsum_from (of_Z 0) l) in *.
  set (norms := Np.linalg_norm <$> Np.diff points) in *.
  assert (Hlast : last (of_Z 0 :: Np.cumsum_from (of_Z 0) norms)
                  = Some (total_length points)).
  { unfold total_length.
    change (Np.cumsum (of_Z 0 :: ?l))
      with (of_Z 0 :: Np.cumsum_from (of_Z 0) l).
    fold norms.
    destruct (last (of_Z 0 :: _)) as [L|] eqn:E; [done|].
    by apply last_None in E. }
  assert (Hself : PrimFloat.is_finite
            (fdiv (total_length points) (total_length points)) = true).
  { apply Hfin. apply list_elem_of_In.
    apply (list_elem_of_fmap_2 (λ d, fdiv d (total_length points))).
    by apply last_Some_elem_of. }
  assert (Hzero : PrimFloat.is_finite (fdiv (of_Z 0) (total_length points))
                  = true).
  { apply Hfin. apply list_elem_of_In.
    apply (list_elem_of_fmap_2 (λ d, fdiv d (total_length points))).
    by left. }
  apply is_finite_not_nan in Hself, Hzero.
  change (@fdiv float _) with PrimFloat.div in *.
  rewrite FloatAxioms.div_spec in Hself, Hzero.
  unfold nonneg_or_nan in Hnn.
  destruct (B2SF (total_length points)) as [s|s| |s m e] eqn:HL;
    simpl in Hnn; subst; try done.
  split.
  - simpl. f_equal. apply FloatAxioms.Prim2SF_inj.
    rewrite FloatAxioms.div_spec, HL. vm_compute. reflexivity.
  - rewrite fmap_last, Hlast. simpl. f_equal.
    change (@fdiv float _) with PrimFloat.div.
    by rewrite (div_self _ m e HL).
Qed.
End Binary64Ends.

(** ** Resampling on binary64 *)

Section Resampling64.
Variable CubicSpline : list float → list float → outcome (float → float).
Hypothesis contract : validating CubicSpline.

Lemma accepted_no_repeat (points : list (vec float)) i p q :
  accepted points = true →
  points !! i = Some p → points !! S i = Some q → p ≠ q.
Proof.
  intros Hacc Hp Hq ->.
  by rewrite (repeated_point_refused points i q Hp Hq) in Hacc.
Qed.

(** C2, amended: on binary64, resampling returns exactly when the spline
    constructor accepts the parameters the function computes (at least 2
    of them, finite, strictly increasing), and raises the constructor's
    ValueError otherwise.  An accepted polyline has at least 2 points and
    no two coincident consecutive points, and its parameters run from
    exactly 0 to exactly 1.  The result for a requested count N then has
    exactly N points, the three splines at the N samples of
    np.linspace(0, 1, N); for N >= 2 the last of them is the splines'
    value at 1, the last parameter, and the first and last output points
    are the first and last input points whenever the splines reproduce
    their first and last data and the first sample of np.linspace is 0
    (a computation for any given N). *)
Theorem resampling_count_and_endpoints (points : list (vec float)) (N : nat) :
  (accepted points = false →
   interpolate_line CubicSpline points (Some N) = Raises ValueError)
  ∧ (accepted points = true →
     ∃ sx sy sz out,
       CubicSpline (distance_normalized points) (vx <$> points) = Returns sx
       ∧ CubicSpline (distance_normalized points) (vy <$> points)
         = Returns sy
       ∧ CubicSpline (distance_normalized points) (vz <$> points)
         = Returns sz
       ∧ interpolate_line CubicSpline points (Some N) = Returns out
       ∧ out = (λ u, V3 (sx u) (sy u) (sz u)) <$> Np.linspace01 N
       ∧ length out = N
       ∧ 2 ≤ length points
       ∧ (∀ i p q, points !! i = Some p → points !! S i = Some q → p ≠ q)
       ∧ head (distance_normalized points) = Some (of_Z 0)
       ∧ last (distance_normalized points) = Some (of_Z 1)
       ∧ (2 ≤ N → last out = Some (V3 (sx (of_Z 1)) (sy (of_Z 1))
                                     (sz (of_Z 1))))
       ∧ (∀ p q, 2 ≤ N → head points = Some p → last points = Some q →
            head (Np.linspace01 N) = Some (of_Z 0) →
            through_ends sx (distance_normalized points) (vx <$> points) →
            through_ends sy (distance_normalized points) (vy <$> points) →
            through_ends sz (distance_normalized points) (vz <$> points) →
            head out = Some p ∧ last out = Some q)).
Proof.
  destruct (interpolate_line_outcome CubicSpline contract points N)
    as [Hrefused Haccepted].
  split; [done|]. intros Hacc.
  destruct (Haccepted Hacc)
    as (sx & sy & sz & out & Hsx & Hsy & Hsz & Hret & Hout & Hlen & Hlast
        & Hends).
  destruct (accepted_ends points Hacc) as [Hfirst Hend].
  exists sx, sy, sz, out. do 6 (split; [done|]).
  split; [by apply accepted_length|].
  split; [intros i p q; by apply accepted_no_repeat|].
  do 3 (split; [done|]).
  intros p q HN Hp Hq Hu0 Hx Hy Hz.
  apply Hends; try done. by rewrite Hfirst, Hu0.
Qed.
End Resampling64.

Section Witness64.
Lemma resampling_count_and_endpoints_witness :
  interpolate_line checked_spline absorbed_chord (Some 4) = Raises ValueError
  ∧ ∃ out,
      interpolate_line checked_spline bent_linef (Some 5) = Returns out
      ∧ length out = 5
      ∧ head out = head bent_linef
      ∧ last out = last bent_linef.
Proof.
  split.
  { apply (resampling_count_and_endpoints checked_spline
             checked_spline_validating absorbed_chord 4).
    vm_compute. reflexivity. }
  destruct (resampling_count_and_endpoints checked_spline
              checked_spline_validating bent_linef 5) as [_ Hacc].
  assert (Hok : accepted bent_linef = true) by (vm_compute; reflexivity).
  destruct (Hacc Hok) as (sx & sy & sz & out & Hsx & Hsy & Hsz & Hret & _
                          & Hlen & _ & _ & _ & _ & _ & Hends).
  exists out. split; [done|]. split; [done|].
  assert (Hthrough : ∀ (c : vec float → float) s,
    checked_spline (distance_normalized bent_linef) (c <$> bent_linef)
    = Returns s →
    (c = vx ∨ c = vy ∨ c = vz) →
    through_ends s (distance_normalized bent_linef) (c <$> bent_linef)).
  { intros c s Hs Hc. unfold checked_spline in Hs.
    destruct (prepare_input _ _); [|done]. injection Hs as <-.
    split; intros a b Ha Hb; destruct Hc as [->|[->| ->]];
      vm_compute in Ha, Hb; simplify_eq; vm_compute; reflexivity. }
  apply (Hends (f3 0 0 0) (f3 3 4 2));
    [lia|done|done|vm_compute; reflexivity
    |apply Hthrough|apply Hthrough|apply Hthrough]; auto.
Defined.
End Witness64.

(** * The rest of the script

    The functions of [set_FS_frame.py] not met so far, and the outcomes of
    the ones above on short inputs. *)

Section ScriptRest.
Context {F : Type} `{Scalar F}.

(** [np.cross(a, b)] on an (n,3) and an (m,3) array: row by row when
    [n = m], a single row being broadcast against the other array; other
    shapes do not broadcast. *)
Definition cross_rows (a b : list (vec F)) : outcome (list (vec F)) :=
  if decide (length a = length b) then Returns (zip_with Np.cross a b)
  else match a, b with
       | [x], _ => Returns (Np.cross x <$> b)
       | _, [y] => Returns ((λ x, Np.cross x y) <$> a)
       | _, _ => Raises ValueError
       end.

(** Lines 105-115. *)
Definition compute_binormal_vectors (tangents normals : list (vec F))
    : outcome (list (vec F)) :=
  binormals ← cross_rows tangents normals;
  smooth_vectors_default (normalize_with_placeholder binormals).

Lemma length_mask_set (a : list (vec F)) (zeros : list bool) v :
  length zeros = length a → length (mask_set a zeros v) = length a.
Proof. intros Hz. unfold mask_set. rewrite length_zip_with. lia. Qed.

Lemma length_normalize_with_placeholder (a : list (vec F)) :
  length (normalize_with_placeholder a) = length a.
Proof.
  unfold normalize_with_placeholder. cbv zeta.
  set (norms := Np.linalg_norm <$> a).
  set (zeros := (λ n, fltb n eps) <$> norms).
  assert (Hn : length norms = length a) by apply length_fmap.
  assert (Hz : length zeros = length a)
    by (unfold zeros; by rewrite length_fmap).
  assert (Hd : length (Np.div_rows (mask_set a zeros Np.nan3) norms)
               = length a).
  { unfold Np.div_rows. rewrite length_zip_with, length_mask_set by done. lia. }
  rewrite length_mask_set; by rewrite Hd.
Qed.

Lemma smooth_default_empty :
  smooth_vectors_default ([] : list (vec F)) = Raises ValueError.
Proof. done. Qed.

(** X1: Tangent estimation raises IndexError on fewer than 2 points (there is
    no difference to repeat) and otherwise returns one tangent per
    point. *)
Theorem compute_tangent_vectors_outcome (pts : list (vec F)) :
  (length pts < 2 → compute_tangent_vectors pts = Raises IndexError)
  ∧ (2 ≤ length pts →
     ∃ out, compute_tangent_vectors pts = Returns out
            ∧ length out = length pts).
Proof.
  split.
  - intros Hlen. unfold compute_tangent_vectors.
    by rewrite normalized_differences_raises by lia.
  - apply compute_tangent_vectors_returns.
Qed.

(** X2: Frame propagation raises IndexError on an empty tangent array and
    otherwise returns normals and binormals, one of each per tangent. *)
Theorem compute_MRF_outcome (tangents : list (vec F)) :
  (tangents = [] → compute_MRF tangents = Raises IndexError)
  ∧ (tangents ≠ [] →
     ∃ ns bs, compute_MRF tangents = Returns (ns, bs)
              ∧ length ns = length tangents ∧ length bs = length tangents).
Proof.
  split.
  - by intros ->.
  - apply compute_MRF_returns.
Qed.

(** X3: The Frenet normals: IndexError on fewer than 2 tangents, otherwise one
    normal per tangent. *)
Theorem compute_normal_vectors_outcome (tangents : list (vec F)) :
  (length tangents < 2 → compute_normal_vectors tangents = Raises IndexError)
  ∧ (2 ≤ length tangents →
     ∃ out, compute_normal_vectors tangents = Returns out
            ∧ length out = length tangents).
Proof.
  assert (HlenD : length (Np.diff tangents) = length tangents - 1)
    by apply length_diff.
  unfold compute_normal_vectors, Np.last_row. split; intros Hlen.
  - assert (Np.diff tangents = []) as ->; [|done].
    apply nil_length_inv. lia.
  - assert (is_Some (last (Np.diff tangents))) as [d ->].
    { apply last_is_Some. intros HD. rewrite HD in HlenD. simpl in HlenD. lia. }
    rewrite bind_Returns.
    set (a := normalize_with_placeholder _).
    assert (Ha : length a = length tangents).
    { unfold a. rewrite length_normalize_with_placeholder, length_app, HlenD.
      simpl. lia. }
    destruct (smooth_default_returns a) as [-> Hl].
    { intros Hnil. rewrite Hnil in Ha. simpl in Ha. lia. }
    eexists. split; [done|]. by rewrite Hl.
Qed.

(** X4: The Frenet binormals: arrays of different lengths, neither of length
    1, make [np.cross] raise ValueError; two empty arrays pass [np.cross]
    and make the smoothing's padding raise ValueError; arrays of the same
    non-zero length give one binormal per row. *)
Theorem compute_binormal_vectors_outcome (tangents normals : list (vec F)) :
  (length tangents ≠ length normals →
   length tangents ≠ 1 → length normals ≠ 1 →
   compute_binormal_vectors tangents normals = Raises ValueError)
  ∧ (tangents = [] → normals = [] →
     compute_binormal_vectors tangents normals = Raises ValueError)
  ∧ (length tangents = length normals → tangents ≠ [] →
     ∃ out, compute_binormal_vectors tangents normals = Returns out
            ∧ length out = length tangents).
Proof.
  unfold compute_binormal_vectors, cross_rows. split; [|split].
  - intros Hne Ht Hn. destruct (decide _) as [|_]; [done|].
    destruct tangents as [|x [|x' tangents]]; [|done|];
      by destruct normals as [|y [|y' normals]].
  - by intros -> ->.
  - intros Hlen Hne. destruct (decide _) as [_|]; [|done].
    rewrite bind_Returns. set (a := normalize_with_placeholder _).
    assert (Ha : length a = length tangents).
    { unfold a. rewrite length_normalize_with_placeholder, length_zip_with. lia. }
    destruct (smooth_default_returns a) as [-> Hl].
    { intros Hnil. rewrite Hnil in Ha. by destruct tangents. }
    eexists. split; [done|]. by rewrite Hl.
Qed.

(** *** Constant fields *)

Lemma constant_window_gen (n h w i : nat) (v : vec F) :
  i < n → w ≤ 2 * h + 1 →
  forward_window (edge_padded h (replicate n v)) w i = replicate w v.
Proof.
  intros Hi Hw. unfold forward_window, edge_padded.
  destruct n as [|n]; [lia|].
  assert (head (replicate (S n) v) = Some v) as -> by done.
  assert (last (replicate (S n) v) = Some v) as ->.
  { rewrite replicate_S_end. apply last_snoc. }
  simpl default. rewrite <- !replicate_add.
  rewrite drop_replicate, take_replicate. f_equal. lia.
Qed.

(** Every window of a constant field holds ten copies of its vector, so
    the default smoothing maps the field to the constant field of the
    normalized mean of ten copies. *)
Lemma smooth_default_constant (n : nat) (v c : vec F) :
  1 ≤ n → normalize (Np.mean (replicate 10 v)) = c →
  smooth_vectors_default (replicate n v) = Returns (replicate n c).
Proof.
  intros Hn Hc.
  destruct (smooth_default_returns (replicate n v)) as [-> _].
  { destruct n; [lia|done]. }
  f_equal. change (spec_smooth (replicate n v) 10 1)
    with (spec_pass 10 (replicate n v)).
  unfold spec_pass.
  change (Z.to_nat (10 `div` 2)) with 5.
  change (Z.to_nat 10) with 10.
  rewrite length_replicate.
  rewrite (const_fmap _ (seq 0 n) c); [by rewrite length_seq|].
  intros j i Hi. apply lookup_seq in Hi as [-> Hj]. simpl.
  by rewrite constant_window_gen by (done || lia).
Qed.

Lemma spec_pass_constant_gen (n : nat) (v : vec F) (w : Z) :
  (0 ≤ w)%Z →
  spec_pass w (replicate n v)
  = replicate n (normalize (Np.mean (replicate (Z.to_nat w) v))).
Proof.
  intros Hw. unfold spec_pass. cbv zeta. rewrite length_replicate.
  rewrite (const_fmap _ (seq 0 n)
             (normalize (Np.mean (replicate (Z.to_nat w) v))));
    [by rewrite length_seq|].
  intros j i Hi. apply lookup_seq in Hi as [-> Hj]. simpl.
  rewrite constant_window_gen; [done|done|zdiv].
Qed.

(** X7: Smoothing maps a constant field to a constant field, for every
    window size of at least 0 and every number of passes: each pass
    replaces the vector by the mean of a window of its copies divided by
    the computed norm of that mean. *)
Theorem smooth_constant_field (n : nat) (v : vec F) (w : Z) (p : nat) :
  (0 ≤ w)%Z → 1 ≤ n →
  smooth_vectors (replicate n v) w p
  = Returns
      (replicate n
         (Nat.iter p
            (λ u, normalize (Np.mean (replicate (Z.to_nat w) u))) v)).
Proof.
  intros Hw Hn. unfold smooth_vectors.
  rewrite smooth_passes_returns; [|done|left; by destruct n; [lia|]].
  f_equal. unfold spec_smooth. induction p as [|p IH]; [done|].
  simpl. rewrite IH. by apply spec_pass_constant_gen.
Qed.

Lemma forward_window_one (vs : list (vec F)) (i : nat) (v : vec F) :
  vs !! i = Some v → forward_window (edge_padded 0 vs) 1 i = [v].
Proof.
  intros Hv. unfold forward_window, edge_padded. simpl. rewrite app_nil_r.
  by rewrite (drop_S _ _ _ Hv).
Qed.

Lemma spec_pass_window_one_gen (vs : list (vec F)) :
  spec_pass 1 vs = (λ v, normalize (Np.mean [v])) <$> vs.
Proof.
  apply list_eq. intros i. unfold spec_pass. cbv zeta.
  change (Z.to_nat (1 `div` 2)) with 0. change (Z.to_nat 1) with 1.
  rewrite !list_lookup_fmap.
  destruct (vs !! i) as [v|] eqn:Hv.
  - rewrite lookup_seq_lt by (by apply lookup_lt_Some in Hv). simpl.
    by rewrite (forward_window_one vs i v Hv).
  - rewrite lookup_seq_ge by (by apply lookup_ge_None in Hv). done.
Qed.

(** X6: With window size 1 nothing is averaged across rows: each pass
    replaces every row by the mean of that row alone divided by the
    computed norm of that mean. *)
Theorem smooth_window_one (vs : list (vec F)) (p : nat) :
  smooth_vectors vs 1 p
  = Returns (Nat.iter p (fmap (λ v, normalize (Np.mean [v]))) vs).
Proof.
  unfold smooth_vectors.
  rewrite smooth_passes_returns; [|lia|right; lia].
  f_equal. unfold spec_smooth. induction p as [|p IH]; [done|].
  simpl. rewrite IH. apply spec_pass_window_one_gen.
Qed.

Lemma placeholder_all_small (a : list (vec F)) :
  Forall (λ v, fltb (Np.linalg_norm v) eps = true) a →
  normalize_with_placeholder a = replicate (length a) Np.zero3.
Proof.
  intros Hsmall. apply list_eq. intros i.
  destruct (a !! i) as [v|] eqn:Hv.
  - rewrite (placeholder_row a i v Hv).
    + symmetry. apply lookup_replicate_2. by eapply lookup_lt_Some.
    + by apply (Forall_lookup_1 _ _ _ _ Hsmall Hv).
  - apply lookup_ge_None in Hv.
    rewrite (proj2 (lookup_ge_None _ _))
      by (by rewrite length_normalize_with_placeholder).
    symmetry. by apply lookup_replicate_None.
Qed.

(** When all differences of consecutive tangents pass the test
    [norm < 1e-6], the Frenet normals are the smoothing of a field of
    zero placeholders. *)
Lemma compute_normal_vectors_small (tangents : list (vec F)) :
  2 ≤ length tangents →
  (∀ i p q, tangents !! i = Some p → tangents !! S i = Some q →
     fltb (Np.linalg_norm (Np.vsub q p)) eps = true) →
  compute_normal_vectors tangents
  = smooth_vectors_default (replicate (length tangents) Np.zero3).
Proof.
  intros Hlen Hsmall.
  assert (HlenD : length (Np.diff tangents) = length tangents - 1)
    by apply length_diff.
  assert (HD : Forall (λ v, fltb (Np.linalg_norm v) eps = true)
                 (Np.diff tangents)).
  { apply Forall_lookup. intros i d Hd. unfold Np.diff in Hd.
    rewrite lookup_zip_with, lookup_tail in Hd.
    destruct (tangents !! i) as [p|] eqn:Hp; [|done].
    destruct (tangents !! S i) as [q|] eqn:Hq; [|done].
    simpl in Hd. injection Hd as <-. by eapply Hsmall. }
  assert (is_Some (last (Np.diff tangents))) as [d Hd].
  { apply last_is_Some. intros Hnil. rewrite Hnil in HlenD.
    simpl in HlenD. lia. }
  unfold compute_normal_vectors, Np.last_row. rewrite Hd, bind_Returns.
  rewrite placeholder_all_small.
  - rewrite length_app, HlenD. simpl length.
    by replace (length tangents - 1 + 1) with (length tangents) by lia.
  - apply Forall_app. split; [done|]. apply Forall_singleton.
    apply last_Some_elem_of in Hd. by apply (proj1 (Forall_forall _ _) HD).
Qed.
End ScriptRest.

(** * Further properties of the smoothing, in exact arithmetic *)

Section SmoothingMore.
Local Open Scope R_scope.

Lemma mean_nil : Np.mean ([] : list (vec xreal)) = Np.nan3.
Proof.
  change (Np.mean ([] : list (vec xreal)))
    with (Np.vdiv (fin3 (V3 0 0 0)) (Fin 0)).
  apply vdiv_zero.
Qed.

Lemma spec_pass_window_zero (vs : list (vec xreal)) :
  spec_pass 0 vs = replicate (length vs) Np.nan3.
Proof.
  unfold spec_pass.
  rewrite (const_fmap _ (seq 0 (length vs)) Np.nan3); [by rewrite length_seq|].
  intros _ i _. unfold forward_window.
  change (Z.to_nat 0) with 0%nat. rewrite take_0.
  by rewrite mean_nil, normalize_nan3.
Qed.

(** X5: With window size 0 every window is empty and every output row is
    NaN, whatever the input. *)
Theorem smooth_window_zero (vs : list (vec xreal)) (p : nat) :
  (1 ≤ p)%nat →
  smooth_vectors vs 0 p = Returns (replicate (length vs) Np.nan3).
Proof.
  intros Hp. unfold smooth_vectors.
  rewrite smooth_passes_returns by (lia || (right; lia)). f_equal.
  destruct p as [|p]; [lia|]. unfold spec_smooth. simpl.
  rewrite spec_pass_window_zero. f_equal.
  apply (length_spec_smooth vs 0 p).
Qed.

Lemma smooth_window_zero_witness :
  smooth_vectors [fin3 (V3 1 0 0); fin3 (V3 0 1 0)] 0 3
  = Returns (replicate (length [fin3 (V3 1 0 0); fin3 (V3 0 1 0)]) Np.nan3).
Proof. apply (smooth_window_zero [fin3 (V3 1 0 0); fin3 (V3 0 1 0)] 3). lia. Defined.

End SmoothingMore.

(** * A vertical first tangent *)

Section FramesNaN.
Local Open Scope R_scope.

Lemma mean_nan (k : nat) : Np.mean (replicate (S k) (Np.nan3 : vec xreal)) = Np.nan3.
Proof.
  unfold Np.mean, Np.sum_rows. rewrite replicate_S.
  assert (Hs : ∀ l, foldl Np.vadd (Np.nan3 : vec xreal) l = Np.nan3).
  { induction l as [|a l IH]; [done|]. simpl. exact IH. }
  by rewrite Hs.
Qed.

(** A field of NaN rows stays one under the smoothing. *)
Lemma smooth_nan_field (n : nat) :
  (1 ≤ n)%nat →
  smooth_vectors_default (replicate n (Np.nan3 : vec xreal))
  = Returns (replicate n Np.nan3).
Proof.
  intros Hn. apply smooth_default_constant; [done|].
  by rewrite (mean_nan 9).
Qed.

Lemma transport_nan (ts : list (vec xreal)) :
  transport Np.nan3 ts = replicate (length ts) Np.nan3.
Proof. induction ts as [|t ts IH]; [done|]. simpl. by rewrite <- IH. Qed.

Lemma cross_nan_rows (ts : list (vec xreal)) :
  zip_with Np.cross ts (replicate (length ts) Np.nan3)
  = replicate (length ts) Np.nan3.
Proof.
  induction ts as [|t ts IH]; [done|].
  simpl. by rewrite IH, cross_nan3.
Qed.

(** X12: A first tangent along the z axis leaves nothing: the initial normal
    (t_y, -t_x, 0) is the zero vector, its normalization is NaN, and every
    returned normal and binormal is the NaN row, whatever the other
    tangents are. *)
Theorem vertical_first_tangent (z : R) (ts : list (vec xreal)) :
  compute_MRF (fin3 (V3 0 0 z) :: ts)
  = Returns (replicate (S (length ts)) Np.nan3,
             replicate (S (length ts)) Np.nan3).
Proof.
  unfold compute_MRF. rewrite propagate_frames_returns, bind_Returns.
  assert (Hn0 : initial_normal (fin3 (V3 0 0 z)) = Np.nan3).
  { change (initial_normal (fin3 (V3 0 0 z)))
      with (normalize (fin3 (V3 0 (- 0) 0))).
    replace (- 0) with 0 by ring. apply normalize_zero. }
  unfold normals_of. rewrite Hn0, transport_nan.
  change (Np.nan3 :: replicate (length ts) Np.nan3)
    with (replicate (length (fin3 (V3 0 0 z) :: ts)) (Np.nan3 : vec xreal)).
  rewrite cross_nan_rows. simpl length.
  by rewrite !smooth_nan_field by lia.
Qed.

End FramesNaN.

Section ConstantFieldExample.

Lemma smooth_constant_field_witness :
  smooth_vectors (replicate 3 (f3 0 3 4)) 4 2
  = Returns
      (replicate 3
         (Nat.iter 2
            (λ u, normalize (Np.mean (replicate (Z.to_nat 4) u)))
            (f3 0 3 4))).
Proof. apply (smooth_constant_field 3 (f3 0 3 4) 4 2); lia. Defined.
End ConstantFieldExample.

(** * Coincident points on binary64 *)

Section CoincidentPoints.
Import SpecFloat.

Lemma div_zero_or_nan (x y : float) :
  zero_or_nan x → zero_or_nan y → PrimFloat.div x y = PrimFloat.nan.
Proof.
  intros Hx Hy. apply FloatAxioms.Prim2SF_inj.
  rewrite FloatAxioms.div_spec.
  change (B2SF PrimFloat.nan) with S754_nan.
  unfold FloatAxioms.SF64div, SFdiv.
  destruct Hx as [Hx|Hx], Hy as [Hy|Hy]; rewrite Hx, ?Hy; done.
Qed.

(** X29: On binary64, for every array of points, finite or not: where two
    consecutive points coincide, the tangent of that index is, after the
    normalization and before the smoothing, the NaN row; nothing is
    raised. *)
Theorem coincident_points_nan_tangent (pts : list (vec float)) (i : nat)
    (p : vec float) :
  pts !! i = Some p → pts !! S i = Some p →
  ∃ ts, normalized_differences pts = Returns ts
        ∧ length ts = length pts
        ∧ ts !! i = Some Np.nan3.
Proof.
  intros Hp Hq.
  assert (Hlen : 2 ≤ length pts) by (apply lookup_lt_Some in Hq; lia).
  set (D := Np.diff pts).
  assert (HlenD : length D = length pts - 1) by apply length_diff.
  assert (is_Some (last D)) as [d Hd].
  { apply last_is_Some. intros HD. rewrite HD in HlenD. simpl in HlenD. lia. }
  pose proof (normalized_differences_returns _ _ Hd) as Hret. fold D in Hret.
  exists (normalize <$> (D ++ [d])). split; [done|].
  split; [rewrite length_fmap, length_app, HlenD; simpl; lia|].
  assert (HDi : D !! i = Some (Np.vsub p p)) by (by apply lookup_diff).
  rewrite list_lookup_fmap, (lookup_app_l_Some _ _ _ _ HDi). simpl.
  f_equal. unfold normalize, Np.vdiv, Np.nan3.
  pose proof (norm_same_point p) as Hnorm.
  f_equal; (apply div_zero_or_nan; [apply sub_self|exact Hnorm]).
Qed.

Lemma coincident_points_nan_tangent_witness :
  ∃ ts, normalized_differences [f3 0 0 0; f3 1 2 3; f3 1 2 3; f3 4 0 0]
        = Returns ts
        ∧ length ts = length [f3 0 0 0; f3 1 2 3; f3 1 2 3; f3 4 0 0]
        ∧ ts !! 1 = Some Np.nan3.
Proof.
  by apply (coincident_points_nan_tangent
              [f3 0 0 0; f3 1 2 3; f3 1 2 3; f3 4 0 0] 1 (f3 1 2 3)).
Defined.
End CoincidentPoints.

(** * The Frenet normals on a nearly straight curve *)

Section NormalsMore.

(** X14: On binary64: on tangents whose consecutive differences all pass the
    program's test [norm < 1e-6] (a straight or nearly straight curve) the
    zero placeholder does not survive: every row is replaced by the zero
    row, the smoothing divides the zero mean by its zero norm, and every
    returned normal is NaN. *)
Theorem normals_of_straight_curve (tangents : list (vec float)) :
  2 ≤ length tangents →
  (∀ i p q, tangents !! i = Some p → tangents !! S i = Some q →
     PrimFloat.ltb (Np.linalg_norm (Np.vsub q p)) eps = true) →
  compute_normal_vectors tangents
  = Returns (replicate (length tangents) Np.nan3).
Proof.
  intros Hlen Hsmall.
  rewrite compute_normal_vectors_small by done.
  apply smooth_default_constant; [lia|].
  vm_compute. reflexivity.
Qed.

Lemma normals_of_straight_curve_witness :
  compute_normal_vectors [f3 1 0 0; f3 1 0 0; f3 1 0 0]
  = Returns (replicate (length [f3 1 0 0; f3 1 0 0; f3 1 0 0]) Np.nan3).
Proof.
  apply (normals_of_straight_curve [f3 1 0 0; f3 1 0 0; f3 1 0 0]).
  - simpl. lia.
  - intros i p q Hp Hq.
    assert (p = f3 1 0 0 ∧ q = f3 1 0 0) as [-> ->].
    { destruct i as [|[|[|i]]]; simplify_eq/=; done. }
    vm_compute. reflexivity.
Defined.
End NormalsMore.

(** * Further properties of the resampling *)

Section ResamplingMore.
Context {F : Type} `{Scalar F} `{Finiteness F}.
Variable CubicSpline : list F → list F → outcome (F → F).
Hypothesis contract : validating CubicSpline.

(** X15: On an input the spline constructor accepts, every requested count is
    honoured, the default being the number of input points; a count of 0
    gives the empty curve and a count of 1 a single point, on which
    tangent estimation raises IndexError, while on 2 or more points it
    returns one tangent per point. *)
Theorem resampling_count (points : list (vec F)) (num : option nat) :
  accepted points = true →
  ∃ out,
    interpolate_line CubicSpline points num = Returns out
    ∧ length out = default (length points) num
    ∧ (default (length points) num < 2 →
       compute_tangent_vectors out = Raises IndexError)
    ∧ (2 ≤ default (length points) num →
       ∃ ts, compute_tangent_vectors out = Returns ts
             ∧ length ts = length out).
Proof.
  intros Hacc.
  destruct (interpolate_line_accepted CubicSpline contract points num Hacc)
    as (sx & sy & sz & _ & _ & _ & ->).
  eexists. split; [done|].
  assert (Hl : length ((λ u, V3 (sx u) (sy u) (sz u))
                         <$> Np.linspace01 (default (length points) num))
               = default (length points) num)
    by (by rewrite length_fmap, length_linspace).
  split; [done|]. split.
  - intros Hfew. unfold compute_tangent_vectors.
    by rewrite normalized_differences_raises by (rewrite Hl; lia).
  - intros Hmany. apply compute_tangent_vectors_returns. by rewrite Hl.
Qed.
End ResamplingMore.

Section ResamplingMoreExamples.

Lemma resampling_count_witness :
  (∃ out,
     interpolate_line checked_spline bent_linef (Some 1) = Returns out
     ∧ length out = 1
     ∧ compute_tangent_vectors out = Raises IndexError)
  ∧ (∃ out ts,
       interpolate_line checked_spline bent_linef None = Returns out
       ∧ length out = 3
       ∧ compute_tangent_vectors out = Returns ts
       ∧ length ts = 3).
Proof.
  assert (Hok : accepted bent_linef = true) by (vm_compute; reflexivity).
  split.
  - destruct (resampling_count checked_spline checked_spline_validating
                bent_linef (Some 1) Hok) as (out & Hret & Hlen & Hfew & _).
    exists out. split; [done|]. split; [done|]. apply Hfew. simpl. lia.
  - destruct (resampling_count checked_spline checked_spline_validating
                bent_linef None Hok) as (out & Hret & Hlen & _ & Hmany).
    destruct Hmany as (ts & Hts & Hlts); [simpl; lia|].
    exists out, ts. split; [done|]. split; [done|]. split; [done|].
    by rewrite Hlts, Hlen.
Defined.
End ResamplingMoreExamples.

(** * [draw_FS_frames]

    The caller of the pipeline.  The curve read from the file is the
    argument [line_points]; the plotter is the list of calls made on it;
    [np.random.choice(n, k, replace=False)] is a parameter with its
    documented behaviour: [k] distinct indices below [n], or ValueError
    when [k] exceeds [n]. *)

Inductive plot_call (F : Type) : Type :=
  | add_mesh (color : string) (line_width : Z)
  | add_arrows (cent direction : vec F) (color : string) (mag : F)
  | show.
Arguments add_mesh {F} color line_width.
Arguments add_arrows {F} cent direction color mag.
Arguments show {F}.

Section DrawFrames.
Context {F : Type} `{Scalar F}.
Variable CubicSpline : list F → list F → outcome (F → F).
Variable random_choice : nat → nat → outcome (list nat).

(** The literal [0.1]. *)
Definition mag : F := fdiv (of_Z 1) (of_Z 10).

(** The body of the loop of lines 143-157. *)
Definition draw_frame (interpolated_points tangents normals binormals
    : list (vec F)) (draw_tangent draw_normal draw_binormal : bool)
    (calls : list (plot_call F)) (idx : nat) : outcome (list (plot_call F)) :=
  point ← Np.row interpolated_points idx;
  tangent ← Np.row tangents idx;
  normal ← Np.row normals idx;
  binormal ← Np.row binormals idx;
  let calls :=
    if draw_tangent then calls ++ [add_arrows point tangent "green" mag]
    else calls in
  let calls :=
    if draw_normal then calls ++ [add_arrows point normal "red" mag]
    else calls in
  let calls :=
    if draw_binormal then calls ++ [add_arrows point binormal "blue" mag]
    else calls in
  Returns calls.

Fixpoint draw_frames (interpolated_points tangents normals binormals
    : list (vec F)) (draw_tangent draw_normal draw_binormal : bool)
    (random_indices : list nat) (calls : list (plot_call F))
    : outcome (list (plot_call F)) :=
  match random_indices with
  | [] => Returns calls
  | idx :: rest =>
      calls ← draw_frame interpolated_points tangents normals binormals
                draw_tangent draw_normal draw_binormal calls idx;
      draw_frames interpolated_points tangents normals binormals
        draw_tangent draw_normal draw_binormal rest calls
  end.

Definition draw_FS_frames (line_points : list (vec F)) (num_points : nat)
    (draw_tangent draw_normal draw_binormal : bool)
    : outcome (list (plot_call F)) :=
  interpolated_points ← interpolate_line CubicSpline line_points None;
  tangents ← compute_tangent_vectors interpolated_points;
  '(normals, binormals) ← compute_MRF tangents;
  let calls := [add_mesh "blue" 2] in
  random_indices ← random_choice (length interpolated_points) num_points;
  calls ← draw_frames interpolated_points tangents normals binormals
            draw_tangent draw_normal draw_binormal random_indices calls;
  Returns (calls ++ [show]).

(** The arrows one frame adds: one per enabled kind, at the chosen
    point. *)
Definition frame_arrows (interpolated_points tangents normals binormals
    : list (vec F)) (draw_tangent draw_normal draw_binormal : bool)
    (idx : nat) : list (plot_call F) :=
  (if draw_tangent
   then [add_arrows (interpolated_points !!! idx) (tangents !!! idx)
           "green" mag]
   else [])
  ++ (if draw_normal
      then [add_arrows (interpolated_points !!! idx) (normals !!! idx)
              "red" mag]
      else [])
  ++ (if draw_binormal
      then [add_arrows (interpolated_points !!! idx) (binormals !!! idx)
              "blue" mag]
      else []).

(** The number of arrows one frame adds. *)
Definition arrows_per_frame (draw_tangent draw_normal draw_binormal : bool)
    : nat :=
  (if draw_tangent then 1 else 0) + (if draw_normal then 1 else 0)
  + (if draw_binormal then 1 else 0).

Lemma length_frame_arrows (pts ts ns bs : list (vec F)) (dt dn db : bool)
    (indices : list nat) :
  length (flat_map (frame_arrows pts ts ns bs dt dn db) indices)
  = arrows_per_frame dt dn db * length indices.
Proof.
  clear CubicSpline random_choice.
  induction indices as [|idx rest IH]; [simpl; lia|].
  cbn [flat_map]. rewrite length_app, IH.
  unfold frame_arrows, arrows_per_frame. destruct dt, dn, db; simpl; lia.
Qed.

Lemma draw_frames_returns (pts ts ns bs : list (vec F)) (dt dn db : bool)
    (indices : list nat) (calls : list (plot_call F)) :
  length ts = length pts → length ns = length pts →
  length bs = length pts →
  Forall (λ i, i < length pts) indices →
  draw_frames pts ts ns bs dt dn db indices calls
  = Returns (calls ++ flat_map (frame_arrows pts ts ns bs dt dn db) indices).
Proof.
  clear CubicSpline random_choice.
  intros Hts Hns Hbs Hidx. revert calls.
  induction Hidx as [|idx rest Hi _ IH]; intros calls.
  - simpl. by rewrite app_nil_r.
  - cbn [draw_frames flat_map]. unfold draw_frame, Np.row.
    destruct (lookup_lt_is_Some_2 pts idx Hi) as [p Hp].
    destruct (lookup_lt_is_Some_2 ts idx) as [t Ht]; [lia|].
    destruct (lookup_lt_is_Some_2 ns idx) as [n Hn]; [lia|].
    destruct (lookup_lt_is_Some_2 bs idx) as [b Hb]; [lia|].
    rewrite Hp, Ht, Hn, Hb, !bind_Returns. cbv zeta.
    rewrite IH. f_equal. unfold frame_arrows.
    rewrite (list_lookup_total_correct _ _ _ Hp),
      (list_lookup_total_correct _ _ _ Ht),
      (list_lookup_total_correct _ _ _ Hn),
      (list_lookup_total_correct _ _ _ Hb).
    destruct dt, dn, db; by rewrite <- ?app_assoc.
Qed.
End DrawFrames.

Record choice_contract (choice : nat → nat → outcome (list nat)) : Prop := {
  choice_draws : ∀ n k, k ≤ n →
    ∃ l, choice n k = Returns l ∧ length l = k ∧ NoDup l
         ∧ Forall (λ i, i < n) l;
  choice_refuses : ∀ n k, n < k → choice n k = Raises ValueError
}.

(** A choice that meets the contract: the first [k] indices. *)
Definition first_indices (n k : nat) : outcome (list nat) :=
  if decide (k ≤ n) then Returns (seq 0 k) else Raises ValueError.

Lemma first_indices_contract : choice_contract first_indices.
Proof.
  split; intros n k Hk; unfold first_indices.
  - rewrite decide_True by done. eexists. split; [done|].
    split; [apply length_seq|]. split; [apply NoDup_seq|].
    apply Forall_forall. intros i Hi. apply elem_of_seq in Hi. lia.
  - by rewrite decide_False by lia.
Qed.

Section DrawFramesCalls.
Context {F : Type} `{Scalar F} `{Finiteness F}.
Variable CubicSpline : list F → list F → outcome (F → F).
Variable random_choice : nat → nat → outcome (list nat).
Hypothesis contract : validating CubicSpline.
Hypothesis choice : choice_contract random_choice.

(** X17: [draw_FS_frames] on a curve of n points: when the spline constructor
    refuses the curve the call raises ValueError before anything is
    plotted; otherwise the curve is resampled to n points with n tangents,
    normals and binormals, and: asking for more frames than points raises
    ValueError in [np.random.choice]; asking for at most n makes the
    plotter receive the curve, then for every chosen index (all in range:
    no IndexError) one arrow per enabled kind from the resampled point
    along the tangent, normal or binormal of that index, then [show]. *)
Theorem draw_FS_frames_calls (line_points : list (vec F))
    (num_points : nat) (draw_tangent draw_normal draw_binormal : bool) :
  (accepted line_points = false →
   draw_FS_frames CubicSpline random_choice line_points num_points
     draw_tangent draw_normal draw_binormal = Raises ValueError)
  ∧ (accepted line_points = true → length line_points < num_points →
     draw_FS_frames CubicSpline random_choice line_points num_points
       draw_tangent draw_normal draw_binormal = Raises ValueError)
  ∧ (accepted line_points = true → num_points ≤ length line_points →
     ∃ pts ts ns bs indices,
       interpolate_line CubicSpline line_points None = Returns pts
       ∧ compute_tangent_vectors pts = Returns ts
       ∧ compute_MRF ts = Returns (ns, bs)
       ∧ random_choice (length pts) num_points = Returns indices
       ∧ length pts = length line_points ∧ length ts = length line_points
       ∧ length ns = length line_points ∧ length bs = length line_points
       ∧ length indices = num_points ∧ NoDup indices
       ∧ Forall (λ i, i < length line_points) indices
       ∧ draw_FS_frames CubicSpline random_choice line_points num_points
           draw_tangent draw_normal draw_binormal
         = Returns ([add_mesh "blue" 2]
                    ++ flat_map (frame_arrows pts ts ns bs draw_tangent
                                   draw_normal draw_binormal) indices
                    ++ [show])).
Proof.
  unfold draw_FS_frames. split.
  { intros Hrej.
    by rewrite (interpolate_line_refused CubicSpline contract _ _ Hrej). }
  assert (Hrun : accepted line_points = true →
    ∃ pts ts ns bs,
      interpolate_line CubicSpline line_points None = Returns pts
      ∧ compute_tangent_vectors pts = Returns ts
      ∧ compute_MRF ts = Returns (ns, bs)
      ∧ length pts = length line_points ∧ length ts = length line_points
      ∧ length ns = length line_points ∧ length bs = length line_points).
  { intros Hacc.
    destruct (interpolate_line_accepted CubicSpline contract line_points
                None Hacc) as (sx & sy & sz & _ & _ & _ & Hret).
    pose proof (accepted_length _ Hacc) as Hlen.
    set (pts := (λ u, V3 (sx u) (sy u) (sz u))
                  <$> Np.linspace01 (default (length line_points) None))
      in *.
    assert (Hpts : length pts = length line_points)
      by (unfold pts; by rewrite length_fmap, length_linspace).
    destruct (compute_tangent_vectors_returns pts) as (ts & Hts & Hlts);
      [lia|].
    destruct (compute_MRF_returns ts) as (ns & bs & Hmrf & Hlns & Hlbs).
    { intros Hnil. rewrite Hnil in Hlts. simpl in Hlts. lia. }
    exists pts, ts, ns, bs. split; [exact Hret|]. split; [done|].
    split; [done|]. split; [done|]. split; [lia|]. split; lia. }
  split.
  - intros Hacc Hnum.
    destruct (Hrun Hacc)
      as (pts & ts & ns & bs & Hret & Hts & Hmrf & Hpts & _).
    rewrite Hret, bind_Returns, Hts, bind_Returns, Hmrf, bind_Returns.
    cbv zeta. rewrite Hpts.
    by rewrite (choice_refuses _ choice _ _ Hnum).
  - intros Hacc Hnum.
    destruct (Hrun Hacc)
      as (pts & ts & ns & bs & Hret & Hts & Hmrf & Hpts & Hlts & Hlns & Hlbs).
    destruct (choice_draws _ choice (length line_points) num_points Hnum)
      as (indices & Hidx & Hk & Hdistinct & Hrange).
    exists pts, ts, ns, bs, indices.
    split; [done|]. split; [done|]. split; [done|].
    split; [by rewrite Hpts|]. do 4 (split; [done|]).
    split; [done|]. split; [done|]. split; [done|].
    rewrite Hret, bind_Returns, Hts, bind_Returns, Hmrf, bind_Returns.
    cbv zeta. rewrite Hpts, Hidx, bind_Returns.
    rewrite draw_frames_returns; try lia.
    + by rewrite bind_Returns, <- app_assoc.
    + by rewrite Hpts.
Qed.
End DrawFramesCalls.

Lemma draw_FS_frames_calls_witness :
  draw_FS_frames checked_spline first_indices absorbed_chord 2
    true true true = Raises ValueError
  ∧ draw_FS_frames checked_spline first_indices bent_linef 4
      true true true = Raises ValueError
  ∧ ∃ calls,
      draw_FS_frames checked_spline first_indices bent_linef 2
        true false true = Returns calls
      ∧ length calls = 6.
Proof.
  destruct (draw_FS_frames_calls checked_spline first_indices
              checked_spline_validating first_indices_contract
              absorbed_chord 2 true true true) as (Hrefused & _ & _).
  destruct (draw_FS_frames_calls checked_spline first_indices
              checked_spline_validating first_indices_contract
              bent_linef 4 true true true) as (_ & Hmany & _).
  destruct (draw_FS_frames_calls checked_spline first_indices
              checked_spline_validating first_indices_contract
              bent_linef 2 true false true) as (_ & _ & Hdraw).
  assert (Hok : accepted bent_linef = true) by (vm_compute; reflexivity).
  split; [apply Hrefused; vm_compute; reflexivity|].
  split; [apply Hmany; [done|simpl; lia]|].
  destruct (Hdraw Hok) as (pts & ts & ns & bs & indices & _ & _ & _ & _
                           & _ & _ & _ & _ & Hk & _ & _ & ->); [simpl; lia|].
  eexists. split; [done|].
  rewrite !length_app, length_frame_arrows, Hk. reflexivity.
Defined.

(** * [utils/pressureController.py] *)

Section RestPosition.
Context {F : Type} `{Scalar F}.

(** [l[i]] for [0 <= i] on a Python list: IndexError out of range. *)
Definition item {A} (l : list A) (i : nat) : outcome A :=
  match l !! i with
  | Some a => Returns a
  | None => Raises IndexError
  end.

(** The row built at line 12. *)
Definition moved_row (row : list F) (dx dy dz : F) : outcome (list F) :=
  x ← item row 0;
  y ← item row 1;
  z ← item row 2;
  Returns [fadd x dx; fadd y dy; fadd z dz].

(** The loop of lines 11-12 over the remaining indices. *)
Fixpoint moveRestPos_loop (rest_pos : list (list F)) (dx dy dz : F)
    (indices : list nat) (out : list (list F)) : outcome (list (list F)) :=
  match indices with
  | [] => Returns out
  | i :: rest =>
      row ← item rest_pos i;
      moved ← moved_row row dx dy dz;
      moveRestPos_loop rest_pos dx dy dz rest (out ++ [moved])
  end.

Definition moveRestPos (rest_pos : list (list F)) (dx dy dz : F)
    : outcome (list (list F)) :=
  moveRestPos_loop rest_pos dx dy dz (seq 0 (length rest_pos)) [].

(** The first three entries of a row, moved. *)
Definition shifted (dx dy dz : F) (row : list F) : list F :=
  match row with
  | x :: y :: z :: _ => [fadd x dx; fadd y dy; fadd z dz]
  | _ => row
  end.

Lemma moved_row_shifted (row : list F) (dx dy dz : F) :
  3 ≤ length row → moved_row row dx dy dz = Returns (shifted dx dy dz row).
Proof. destruct row as [|x [|y [|z row]]]; simpl; try lia. done. Qed.

Lemma moved_row_short (row : list F) (dx dy dz : F) :
  length row < 3 → moved_row row dx dy dz = Raises IndexError.
Proof. destruct row as [|x [|y [|z row]]]; simpl; try lia; done. Qed.

Lemma moveRestPos_loop_spec (rest_pos : list (list F)) (dx dy dz : F)
    (rows : list (list F)) (i : nat) (out : list (list F)) :
  i + length rows = length rest_pos →
  drop i rest_pos = rows →
  moveRestPos_loop rest_pos dx dy dz (seq i (length rows)) out
  = match list_find (λ r, length r < 3) rows with
    | None => Returns (out ++ (shifted dx dy dz <$> rows))
    | Some _ => Raises IndexError
    end.
Proof.
  revert i out. induction rows as [|row rows IH]; intros i out Hlen Hdrop.
  - simpl. by rewrite app_nil_r.
  - cbn [length seq moveRestPos_loop]. unfold item at 1.
    assert (rest_pos !! i = Some row) as ->.
    { rewrite <- (Nat.add_0_r i), <- lookup_drop, Hdrop. done. }
    rewrite bind_Returns. cbn [list_find].
    destruct (decide (length row < 3)) as [Hs|Hs].
    + by rewrite (moved_row_short _ _ _ _ Hs).
    + rewrite moved_row_shifted, bind_Returns by lia.
      rewrite (IH (S i)).
      * destruct (list_find _ rows) as [[j r]|]; simpl; [done|].
        by rewrite <- app_assoc.
      * simpl in Hlen. lia.
      * replace (S i) with (i + 1) by lia.
        by rewrite <- drop_drop, Hdrop.
Qed.

Lemma moveRestPos_spec (rest_pos : list (list F)) (dx dy dz : F) :
  moveRestPos rest_pos dx dy dz
  = match list_find (λ r, length r < 3) rest_pos with
    | None => Returns (shifted dx dy dz <$> rest_pos)
    | Some _ => Raises IndexError
    end.
Proof.
  unfold moveRestPos.
  by rewrite (moveRestPos_loop_spec rest_pos dx dy dz rest_pos 0 []).
Qed.

(** X18: [moveRestPos] returns exactly when every row has at least three
    entries; the result then has one row of exactly three entries per input
    row, the first three entries moved and any further entry dropped.  A
    row of fewer than three entries raises IndexError. *)
Theorem moveRestPos_outcome (rest_pos : list (list F)) (dx dy dz : F) :
  (Forall (λ r, 3 ≤ length r) rest_pos →
   moveRestPos rest_pos dx dy dz = Returns (shifted dx dy dz <$> rest_pos)
   ∧ Forall (λ r, length r = 3) (shifted dx dy dz <$> rest_pos))
  ∧ (Exists (λ r, length r < 3) rest_pos →
     moveRestPos rest_pos dx dy dz = Raises IndexError).
Proof.
  rewrite moveRestPos_spec.
  split.
  - intros Hall.
    destruct (list_find _ rest_pos) as [[j r]|] eqn:Hfind.
    + apply list_find_Some in Hfind as (Hj & Hr & _).
      pose proof (Forall_lookup_1 _ _ _ _ Hall Hj). simpl in *. lia.
    + split; [done|]. apply Forall_fmap. eapply Forall_impl; [exact Hall|].
      intros [|x [|y [|z row]]]; simpl; intros; (lia || done).
  - intros Hex. apply Exists_exists in Hex as (r & Hin & Hr).
    destruct (list_find _ rest_pos) as [[j r']|] eqn:Hfind; [done|].
    apply list_find_None in Hfind.
    pose proof (proj1 (Forall_forall _ _) Hfind r Hin). simpl in *. lia.
Qed.
End RestPosition.

(** ** The pressure controller *)

Definition TypeError : exn := PyExn "TypeError".

(** A line written by [print]: a literal text, or ["Pressure value: "]
    followed by [str] of a float. *)
Inductive printed (F : Type) : Type :=
  | print_text (s : string)
  | print_pressure (v : F).
Arguments print_text {F} s.
Arguments print_pressure {F} v.

(** What a handler acts on: the Data field [self.constraints[0].value] and
    the standard output. *)
Record world (F : Type) : Type := World {
  value : list F;
  stdout : list (printed F)
}.
Arguments World {F} value stdout.
Arguments value {F} w.
Arguments stdout {F} w.

(** A handler: from a world to the world it leaves and its outcome. *)
Definition prog (F A : Type) : Type := world F → world F * outcome A.

#[global] Instance prog_ret {F} : MRet (prog F) := λ A a w, (w, Returns a).
#[global] Instance prog_bind {F} : MBind (prog F) := λ A B k m w,
  match m w with
  | (w', Returns a) => k a w'
  | (w', Raises e) => (w', Raises e)
  end.

Section Controller.
Context {F : Type} `{Scalar F}.

Definition lift {A} (o : outcome A) : prog F A := λ w, (w, o).

Definition print (p : printed F) : prog F unit :=
  λ w, (World (value w) (stdout w ++ [p]), Returns tt).

(** [self.constraints[0].value.value[0]] *)
Definition read_pressure : prog F F :=
  λ w, (w, item (value w) 0).

(** [self.constraints[0].value = l] *)
Definition write_pressure (l : list F) : prog F unit :=
  λ w, (World l (stdout w), Returns tt).

Definition when (b : bool) (m : prog F unit) : prog F unit :=
  if b then m else mret tt.

(** [ord(key)]: the code point of a string of length 1, TypeError
    otherwise. *)
Definition ord (key : list N) : outcome N :=
  match key with
  | [c] => Returns c
  | _ => Raises TypeError
  end.

(** The literals [0.01], [1.5] and [0.0]. *)
Definition increment : F := fdiv (of_Z 1) (of_Z 100).
Definition cap : F := fdiv (of_Z 3) (of_Z 2).
Definition floor : F := of_Z 0.

Definition onKeypressedEvent (debug : bool) (key : list N) : prog F unit :=
  c ← lift (ord key);
  (if (c =? 19)%N then
     when debug (print (print_text "You pressed the Up key"));;
     p ← read_pressure;
     let pressureValue := fadd p increment in
     let pressureValue :=
       if fltb cap pressureValue then cap else pressureValue in
     write_pressure [pressureValue];;
     when debug (p ← read_pressure; print (print_pressure p))
   else mret tt);;
  c ← lift (ord key);
  (if (c =? 21)%N then
     when debug (print (print_text "You pressed the Down key"));;
     p ← read_pressure;
     let pressureValue := fsub p increment in
     let pressureValue :=
       if fltb pressureValue floor then floor else pressureValue in
     write_pressure [pressureValue];;
     when debug (p ← read_pressure; print (print_pressure p))
   else mret tt);;
  c ← lift (ord key);
  (if (c =? 18)%N then
     when debug (print (print_text "You pressed the Left key"))
   else mret tt);;
  c ← lift (ord key);
  (if (c =? 20)%N then
     when debug (print (print_text "You pressed the Right key"))
   else mret tt).

Definition onKeyreleasedEvent (debug : bool) (key : list N) : prog F unit :=
  c ← lift (ord key);
  (if (c =? 19)%N then
     when debug (print (print_text "You released the Up key"))
   else mret tt);;
  c ← lift (ord key);
  (if (c =? 21)%N then
     when debug (print (print_text "You released the Down key"))
   else mret tt);;
  c ← lift (ord key);
  (if (c =? 18)%N then
     when debug (print (print_text "You released the Left key"))
   else mret tt);;
  c ← lift (ord key);
  (if (c =? 20)%N then
     when debug (print (print_text "You released the Right key"))
   else mret tt).
End Controller.

Section Arduino.
Context {F : Type} `{Scalar F}.
(** [re.search(r'Pressure from A0: (\d+\.\d+) MPa', line)] followed, on a
    match, by [float(match.group(1))]. *)
Variable float_of_match : string → option F.

(** One turn of the loop of [readArduino] (lines 152-168) on the decoded
    and stripped line. *)
Definition readArduino_step (debug : bool) (line : string) : prog F unit :=
  when debug (print (print_text line));;
  match float_of_match line with
  | Some pressure_value =>
      let pressure_value :=
        if fltb pressure_value floor then floor else pressure_value in
      let pressure_value :=
        if fltb (of_Z 2) pressure_value then of_Z 2 else pressure_value in
      write_pressure [pressure_value]
  | None => mret tt
  end.

(** What reaches the controller: key events on the main thread and lines
    on the serial port. *)
Inductive event : Type :=
  | KeyPressed (key : list N)
  | KeyReleased (key : list N)
  | LineRead (line : string).

Definition handle (debug : bool) (e : event) : prog F unit :=
  match e with
  | KeyPressed key => onKeypressedEvent debug key
  | KeyReleased key => onKeyreleasedEvent debug key
  | LineRead line => readArduino_step debug line
  end.

(** Events handled one after the other, each to its end; a handler that
    raises leaves the world as it was when the exception was raised, and
    the next event is handled from there. *)
Definition run (debug : bool) (events : list event) (w : world F)
    : world F :=
  foldl (λ w e, (handle debug e w).1) w events.
End Arduino.

Section ControllerSteps.
Context {F : Type} `{Scalar F}.

(** The value the Up key stores when it reads [p], and the Down key. *)
Definition up_value (p : F) : F :=
  let pressureValue := fadd p increment in
  if fltb cap pressureValue then cap else pressureValue.

Definition down_value (p : F) : F :=
  let pressureValue := fsub p increment in
  if fltb pressureValue floor then floor else pressureValue.

Definition pressed_value (c : N) (l : list F) : list F :=
  if (c =? 19)%N then
    match l with p :: _ => [up_value p] | [] => [] end
  else if (c =? 21)%N then
    match l with p :: _ => [down_value p] | [] => [] end
  else l.

Ltac open_prog :=
  unfold onKeypressedEvent, onKeyreleasedEvent, mbind, prog_bind, lift,
    mret, prog_ret; cbn -[N.eqb].

Ltac key_cases c :=
  open_prog;
  destruct (N.eqb_spec c 19) as [->|?];
  [|destruct (N.eqb_spec c 21) as [->|?];
    [|destruct (N.eqb_spec c 18) as [->|?];
      [|destruct (N.eqb_spec c 20) as [->|?]]]].

Lemma key_pressed_value (debug : bool) (c : N) (w : world F) :
  value (onKeypressedEvent debug [c] w).1 = pressed_value c (value w).
Proof.
  unfold pressed_value.
  key_cases c; destruct w as [[|p rest] out], debug; done.
Qed.

Lemma key_pressed_outcome (debug : bool) (c : N) (w : world F) :
  (onKeypressedEvent debug [c] w).2
  = if decide (value w = [] ∧ (c = 19 ∨ c = 21)%N)
    then Raises IndexError else Returns tt.
Proof.
  key_cases c; destruct w as [[|p rest] out], debug; cbn;
    case_decide as Hd; try done;
    first [ by destruct Hd as [? [?|?]]
          | by exfalso; apply Hd; split; [|left]
          | by exfalso; apply Hd; split; [|right] ].
Qed.

Lemma key_pressed_quiet (key : list N) (w : world F) :
  stdout (onKeypressedEvent false key w).1 = stdout w.
Proof.
  destruct key as [|c [|c' key]]; try done.
  key_cases c; destruct w as [[|p rest] out]; done.
Qed.

Lemma key_pressed_bad (debug : bool) (key : list N) (w : world F) :
  length key ≠ 1 → onKeypressedEvent debug key w = (w, Raises TypeError).
Proof. destruct key as [|c [|c' key]]; done. Qed.

Lemma key_released_value (debug : bool) (key : list N) (w : world F) :
  value (onKeyreleasedEvent debug key w).1 = value w.
Proof.
  destruct key as [|c [|c' key]]; try done.
  key_cases c; destruct w as [l out], debug; done.
Qed.

Lemma pressed_value_any (debug : bool) (key : list N) (w : world F) :
  value (onKeypressedEvent debug key w).1 = value w
  ∨ ∃ c, key = [c] ∧ value (onKeypressedEvent debug key w).1
                     = pressed_value c (value w).
Proof.
  destruct key as [|c [|c' key]]; [by left| |by left].
  right. exists c. split; [done|]. apply key_pressed_value.
Qed.
End ControllerSteps.

Section ControllerRuns.
Context {F : Type} `{Scalar F}.
Variable float_of_match : string → option F.

(** The value a sensor reading stores. *)
Definition read_value (v : F) : F :=
  let pressure_value := if fltb v floor then floor else v in
  if fltb (of_Z 2) pressure_value then of_Z 2 else pressure_value.

Lemma line_read_value (debug : bool) (line : string) (w : world F) :
  value (readArduino_step float_of_match debug line w).1
  = match float_of_match line with
    | Some v => [read_value v]
    | None => value w
    end.
Proof.
  unfold readArduino_step, read_value, mbind, prog_bind, mret, prog_ret.
  destruct debug, (float_of_match line); done.
Qed.

Lemma run_cons (debug : bool) (e : event) (events : list event)
    (w : world F) :
  run float_of_match debug (e :: events) w
  = run float_of_match debug events (handle float_of_match debug e w).1.
Proof. done. Qed.

Lemma run_invariant (I : list F → Prop) (debug : bool)
    (events : list event) (w : world F) :
  Forall (λ e, ∀ w, I (value w) →
               I (value (handle float_of_match debug e w).1)) events →
  I (value w) → I (value (run float_of_match debug events w)).
Proof.
  intros Hall. revert w.
  induction Hall as [|e events He _ IH]; intros w Hw; [done|].
  rewrite run_cons. apply IH, He, Hw.
Qed.

(** Key events only. *)
Definition is_key (e : event) : Prop :=
  match e with
  | LineRead _ => False
  | _ => True
  end.

(** X21: A key press raises TypeError exactly on a key that is not one
    character, before anything is read or printed; on one character it
    raises IndexError exactly when Up or Down finds the pressure Data
    empty, and returns otherwise.  Only Up and Down change the pressure:
    every other key, and every key release, leaves it as it was.  With
    [debug] off a key press prints nothing. *)
Theorem key_events_outcome (debug : bool) (key : list N) (w : world F) :
  (length key ≠ 1 → onKeypressedEvent debug key w = (w, Raises TypeError))
  ∧ (∀ c, key = [c] →
       (onKeypressedEvent debug key w).2
       = if decide (value w = [] ∧ (c = 19 ∨ c = 21)%N)
         then Raises IndexError else Returns tt)
  ∧ (key ≠ [19%N] → key ≠ [21%N] →
     value (onKeypressedEvent debug key w).1 = value w)
  ∧ value (onKeyreleasedEvent debug key w).1 = value w
  ∧ stdout (onKeypressedEvent false key w).1 = stdout w.
Proof.
  split; [apply key_pressed_bad|].
  split; [intros c ->; apply key_pressed_outcome|].
  split; [|split; [apply key_released_value|apply key_pressed_quiet]].
  intros Hup Hdown.
  destruct (pressed_value_any debug key w) as [|(c & -> & ->)]; [done|].
  unfold pressed_value.
  destruct (N.eqb_spec c 19) as [->|_]; [done|].
  by destruct (N.eqb_spec c 21) as [->|_].
Qed.
End ControllerRuns.

Section ControllerExact.
Local Open Scope R_scope.
Variable float_of_match : string → option xreal.

Lemma increment_fin : (increment : xreal) = Fin (1 / 100).
Proof.
  change (increment : xreal) with (X.div (Fin 1) (Fin 100)).
  apply xdiv_fin. lra.
Qed.

Lemma cap_fin : (cap : xreal) = Fin (3 / 2).
Proof.
  change (cap : xreal) with (X.div (Fin 3) (Fin 2)).
  apply xdiv_fin. lra.
Qed.

Lemma up_value_fin (p : R) :
  up_value (Fin p) = Fin (Rmin (p + 1 / 100) (3 / 2)).
Proof.
  unfold up_value. cbv zeta. rewrite increment_fin, cap_fin.
  change (fadd (Fin p) (Fin (1 / 100))) with (Fin (p + 1 / 100)).
  change (fltb (Fin (3 / 2)) (Fin (p + 1 / 100)))
    with (if Rlt_dec (3 / 2) (p + 1 / 100) then true else false).
  unfold Rmin.
  destruct (Rlt_dec _ _), (Rle_dec _ _); f_equal; lra.
Qed.

Lemma down_value_fin (p : R) :
  down_value (Fin p) = Fin (Rmax (p - 1 / 100) 0).
Proof.
  unfold down_value. cbv zeta. rewrite increment_fin.
  change (fsub (Fin p) (Fin (1 / 100))) with (Fin (p - 1 / 100)).
  change (floor : xreal) with (Fin 0).
  change (fltb (Fin (p - 1 / 100)) (Fin 0))
    with (if Rlt_dec (p - 1 / 100) 0 then true else false).
  unfold Rmax.
  destruct (Rlt_dec _ _), (Rle_dec _ _); f_equal; lra.
Qed.

Lemma read_value_fin (v : R) :
  read_value (Fin v) = Fin (Rmin (Rmax v 0) 2).
Proof.
  unfold read_value. cbv zeta.
  change (floor : xreal) with (Fin 0).
  change (of_Z 2 : xreal) with (Fin 2).
  change (fltb (Fin v) (Fin 0)) with (if Rlt_dec v 0 then true else false).
  unfold Rmin, Rmax.
  destruct (Rlt_dec v 0).
  - change (fltb (Fin 2) (Fin 0)) with (if Rlt_dec 2 0 then true else false).
    destruct (Rlt_dec 2 0), (Rle_dec v 0); try lra.
    destruct (Rle_dec 0 2); f_equal; lra.
  - change (fltb (Fin 2) (Fin v)) with (if Rlt_dec 2 v then true else false).
    destruct (Rlt_dec 2 v), (Rle_dec v 0);
      repeat destruct (Rle_dec _ _); f_equal; lra.
Qed.

Lemma up_value_nan : up_value (NaN : xreal) = NaN.
Proof. unfold up_value. cbv zeta. by rewrite increment_fin, cap_fin. Qed.

Lemma down_value_nan : down_value (NaN : xreal) = NaN.
Proof. unfold down_value. cbv zeta. by rewrite increment_fin. Qed.

(** A finite pressure within a range that both keys keep. *)
Definition pressure_within (lo hi : R) (l : list xreal) : Prop :=
  ∃ q, l = [Fin q] ∧ lo <= q <= hi.

Lemma pressed_within (hi : R) (c : N) (l : list xreal) :
  3 / 2 <= hi →
  pressure_within 0 hi l → pressure_within 0 hi (pressed_value c l).
Proof.
  intros Hhi (q & -> & Hq). unfold pressed_value.
  destruct (c =? 19)%N; [|destruct (c =? 21)%N].
  - rewrite up_value_fin. eexists. split; [done|].
    unfold Rmin. destruct (Rle_dec _ _); lra.
  - rewrite down_value_fin. eexists. split; [done|].
    unfold Rmax. destruct (Rle_dec _ _); lra.
  - by exists q.
Qed.

Lemma key_event_within (hi : R) (debug : bool) (e : event)
    (w : world xreal) :
  3 / 2 <= hi → is_key e →
  pressure_within 0 hi (value w) →
  pressure_within 0 hi (value (handle float_of_match debug e w).1).
Proof.
  intros Hhi Hkey Hw. destruct e as [key|key|line]; [| |done]; simpl.
  - destruct (pressed_value_any debug key w) as [->|(c & _ & ->)]; [done|].
    by apply pressed_within.
  - by rewrite key_released_value.
Qed.

(** X22: In exact arithmetic, key presses and releases keep a pressure that
    starts in [0, 1.5] in that range, whatever the keys are and whether or
    not a handler raises on the way. *)
Theorem key_events_keep_range (debug : bool) (events : list event)
    (p : R) (out : list (printed xreal)) :
  Forall is_key events → 0 <= p <= 3 / 2 →
  ∃ q, value (run float_of_match debug events (World [Fin p] out))
       = [Fin q]
       ∧ 0 <= q <= 3 / 2.
Proof.
  intros Hkeys Hp.
  apply (run_invariant float_of_match (pressure_within 0 (3 / 2))).
  - eapply Forall_impl; [exact Hkeys|]. intros e He w.
    apply key_event_within; [lra|done].
  - by exists p.
Qed.

(** X25: A NaN pressure is never repaired by the keys: both clamps compare
    false on NaN, so it stays NaN under every sequence of key events. *)
Theorem nan_pressure_stays (debug : bool) (events : list event)
    (w : world xreal) :
  Forall is_key events → value w = [NaN] →
  value (run float_of_match debug events w) = [NaN].
Proof.
  intros Hkeys Hw.
  apply (run_invariant float_of_match (λ l, l = [NaN])); [|done].
  eapply Forall_impl; [exact Hkeys|].
  intros [key|key|line] He w' Hw'; [| |done]; simpl.
  - destruct (pressed_value_any debug key w') as [->|(c & _ & ->)]; [done|].
    rewrite Hw'. unfold pressed_value.
    destruct (c =? 19)%N; [by rewrite up_value_nan|].
    destruct (c =? 21)%N; [by rewrite down_value_nan|done].
  - by rewrite key_released_value.
Qed.

(** Readings are floats parsed from digits: never NaN. *)
Definition readings_finite : Prop :=
  ∀ line v, float_of_match line = Some v → v ≠ NaN.

Lemma line_read_within (debug : bool) (line : string) (w : world xreal) :
  readings_finite →
  pressure_within 0 2 (value w) →
  pressure_within 0 2 (value (readArduino_step float_of_match debug line w).1).
Proof.
  intros Hfin Hw. rewrite line_read_value.
  destruct (float_of_match line) as [[v|]|] eqn:Hline; [| |done].
  - rewrite read_value_fin. eexists. split; [done|].
    unfold Rmin, Rmax. repeat destruct (Rle_dec _ _); lra.
  - by destruct (Hfin _ _ Hline).
Qed.

(** X26: In exact arithmetic, with sensor readings coming in between the key
    events, each event handled to its end, a pressure that starts in
    [0, 2] stays in [0, 2]. *)
Theorem pressure_range_with_readings (debug : bool) (events : list event)
    (p : R) (out : list (printed xreal)) :
  readings_finite → 0 <= p <= 2 →
  ∃ q, value (run float_of_match debug events (World [Fin p] out))
       = [Fin q]
       ∧ 0 <= q <= 2.
Proof.
  intros Hfin Hp.
  apply (run_invariant float_of_match (pressure_within 0 2)).
  - apply Forall_forall. intros [key|key|line] _ w Hw.
    + by apply key_event_within; [lra| |].
    + by apply key_event_within; [lra| |].
    + by apply line_read_within.
  - by exists p.
Qed.

End ControllerExact.

Section ControllerExamples.
Local Open Scope R_scope.

(** A serial port on which one line carries a reading. *)
Definition one_reading (line : string) : option xreal :=
  if String.eqb line "Pressure from A0: 2.50 MPa" then Some (Fin (5 / 2))
  else None.

Lemma one_reading_finite : readings_finite one_reading.
Proof.
  intros line v. unfold one_reading.
  destruct (String.eqb line _); [|done]. by intros [= <-].
Qed.

Lemma key_events_keep_range_witness :
  ∃ q, value (run one_reading true
                [KeyPressed [19%N]; KeyReleased [19%N]; KeyPressed [];
                 KeyPressed [21%N]]
                (World [Fin (3 / 2)] []))
       = [Fin q]
       ∧ 0 <= q <= 3 / 2.
Proof.
  apply (key_events_keep_range one_reading true
           [KeyPressed [19%N]; KeyReleased [19%N]; KeyPressed [];
            KeyPressed [21%N]] (3 / 2) []).
  - repeat constructor.
  - lra.
Defined.

Lemma nan_pressure_stays_witness :
  value (run one_reading true [KeyPressed [19%N]; KeyPressed [21%N]]
           (World [NaN] []))
  = [NaN].
Proof.
  apply (nan_pressure_stays one_reading true
           [KeyPressed [19%N]; KeyPressed [21%N]] (World [NaN] [])).
  - repeat constructor.
  - reflexivity.
Defined.

Lemma pressure_range_with_readings_witness :
  ∃ q, value (run one_reading true
                [KeyPressed [19%N]; LineRead "Pressure from A0: 2.50 MPa";
                 KeyPressed [21%N]; LineRead "boot"]
                (World [Fin 0] []))
       = [Fin q]
       ∧ 0 <= q <= 2.
Proof.
  apply (pressure_range_with_readings one_reading true
           [KeyPressed [19%N]; LineRead "Pressure from A0: 2.50 MPa";
            KeyPressed [21%N]; LineRead "boot"] 0 []).
  - exact one_reading_finite.
  - lra.
Defined.

End ControllerExamples.

Section ControllerBinary64.

Lemma up_value_capped (p : float) : fltb cap (up_value p) = false.
Proof.
  unfold up_value. cbv zeta.
  destruct (fltb cap (fadd p increment)) eqn:Hlt; [|done].
  apply float_ltb_irrefl.
Qed.

Lemma down_value_floored (p : float) : fltb (down_value p) floor = false.
Proof.
  unfold down_value. cbv zeta.
  destruct (fltb (fsub p increment) floor) eqn:Hlt; [|done].
  apply float_ltb_irrefl.
Qed.

Lemma read_value_clamped (v : float) :
  fltb (of_Z 2) (read_value v) = false ∧ fltb (read_value v) floor = false.
Proof.
  unfold read_value. cbv zeta.
  destruct (fltb v floor) eqn:Hneg.
  - destruct (fltb (of_Z 2) floor) eqn:Hbig; [by vm_compute in Hbig|].
    split; [done|]. apply float_ltb_irrefl.
  - destruct (fltb (of_Z 2) v) eqn:Hbig; [|done].
    split; [apply float_ltb_irrefl|]. by vm_compute.
Qed.

(** X28: In binary64, for every stored float, infinities and NaN included: the
    value the Up key stores is not above 1.5, the value the Down key
    stores is not below 0, and the value a sensor reading stores is
    neither above 2 nor below 0.  The comparisons are the program's own,
    so a NaN (on which they are all false) passes them. *)
Theorem stored_pressure_binary64 (debug : bool) (p : float)
    (rest : list float) (out : list (printed float))
    (float_of_match : string → option float) (line : string) :
  (∃ v, value (onKeypressedEvent debug [19%N] (World (p :: rest) out)).1
        = [v]
        ∧ PrimFloat.ltb cap v = false)
  ∧ (∃ v, value (onKeypressedEvent debug [21%N] (World (p :: rest) out)).1
          = [v]
          ∧ PrimFloat.ltb v floor = false)
  ∧ (float_of_match line = Some p →
     ∃ v, value (readArduino_step float_of_match debug line
                   (World rest out)).1
          = [v]
          ∧ PrimFloat.ltb (of_Z 2) v = false
          ∧ PrimFloat.ltb v floor = false).
Proof.
  split; [|split].
  - exists (up_value p). split; [by rewrite key_pressed_value|].
    apply up_value_capped.
  - exists (down_value p). split; [by rewrite key_pressed_value|].
    apply down_value_floored.
  - intros Hline. exists (read_value p).
    split; [by rewrite line_read_value, Hline|].
    apply read_value_clamped.
Qed.

Lemma above_two_not_negative (v : float) :
  PrimFloat.ltb (of_Z 2) v = true → PrimFloat.ltb v floor = false.
Proof.
  rewrite !FloatAxioms.ltb_spec.
  change (FloatOps.Prim2SF (of_Z 2))
    with (SpecFloat.S754_finite false 4503599627370496 (-51)).
  change (FloatOps.Prim2SF floor) with (SpecFloat.S754_zero false).
  unfold SpecFloat.SFltb, SpecFloat.SFcompare.
  by destruct (FloatOps.Prim2SF v) as [[|]|[|]| |[|] m e].
Qed.

(** X27: On binary64 the bound 1.5 belongs to the Up key alone: after a
    reading above 2 (an infinite one included) the value stored is 2, and
    the Down key then stores 2 - 0.01, which is above 1.5. *)
Theorem reading_then_down_exceeds_cap (float_of_match : string → option float)
    (debug : bool) (line : string) (v : float) (w : world float) :
  float_of_match line = Some v → PrimFloat.ltb (of_Z 2) v = true →
  value (run float_of_match debug [LineRead line; KeyPressed [21%N]] w)
  = [fsub (of_Z 2) increment]
  ∧ PrimFloat.ltb cap (fsub (of_Z 2) increment) = true.
Proof.
  intros Hline Hbig. split; [|by vm_compute].
  rewrite !run_cons. unfold run. cbn [foldl handle].
  rewrite key_pressed_value, line_read_value, Hline.
  unfold pressed_value. cbn [N.eqb Pos.eqb].
  unfold read_value. cbv zeta.
  assert (Hneg : fltb v floor = false)
    by exact (above_two_not_negative v Hbig).
  assert (Hbig' : fltb (of_Z 2) v = true) by exact Hbig.
  rewrite Hneg, Hbig'. vm_compute. reflexivity.
Qed.

(** A serial port on which one line carries a reading above 2. *)
Definition high_reading (line : string) : option float :=
  if String.eqb line "Pressure from A0: 2.50 MPa"
  then Some (fdiv (of_Z 5) (of_Z 2))
  else None.

Lemma reading_then_down_exceeds_cap_witness :
  value (run high_reading false
           [LineRead "Pressure from A0: 2.50 MPa"; KeyPressed [21%N]]
           (World [of_Z 0] []))
  = [fsub (of_Z 2) increment]
  ∧ PrimFloat.ltb cap (fsub (of_Z 2) increment) = true.
Proof.
  apply (reading_then_down_exceeds_cap high_reading false
           "Pressure from A0: 2.50 MPa" (fdiv (of_Z 5) (of_Z 2))
           (World [of_Z 0] [])).
  - reflexivity.
  - vm_compute. reflexivity.
Defined.
End ControllerBinary64.
